(** * Reliability patterns of ai-agent-error-patterns, embedded and verified

    The four demo tasks of the repository (circuit breaker, partial success,
    human escalation, graceful degradation) are written as functions of a
    small JavaScript-like effect monad: state passing for the module-level
    variables and for the two ambient sources of non-determinism
    ([Date.now()] and [Math.random()]), and a sum type for [throw]. *)

From Stdlib Require Import ZArith QArith Lia.
From stdpp Require Import base option list strings gmap fin_maps.

Local Open Scope Z_scope.

(** ** JavaScript values used by the tasks *)

(** A JavaScript string as the sequence of its UTF-16 code units, which is
    what [String.prototype.slice] counts. *)
Abbreviation JsString := (list N).

(** An ASCII literal as a JavaScript string. *)
Definition js (s : string) : JsString :=
  map (fun c => Ascii.N_of_ascii c) (String.list_ascii_of_string s).

(** [s.slice(0, n)] for a non-negative literal [n]. *)
Definition slice0 (n : nat) (s : JsString) : JsString := firstn n s.

(** U+2026, the horizontal ellipsis closing the template answer. *)
Definition ellipsis : JsString := [8230%N].

(** An [Error] object with the two optional properties the tasks attach
    through [Object.assign]. *)
Record JsError := mkError {
  e_message : string;
  e_code : option string;
  e_status : option Z
}.

Definition new_Error (msg : string) : JsError := mkError msg None None.

(** ** The effect monad: state and exceptions *)

Definition JS (S A : Type) : Type := S -> (JsError + A) * S.

#[global] Instance JS_ret {S} : MRet (JS S) := fun A a s => (inr a, s).

#[global] Instance JS_bind {S} : MBind (JS S) := fun A B f m s =>
  match m s with
  | (inr a, s') => f a s'
  | (inl e, s') => (inl e, s')
  end.

Definition throw {S A} (e : JsError) : JS S A := fun s => (inl e, s).

(** [try { body } catch (e) { handler e }] *)
Definition try_catch {S A} (body : JS S A) (handler : JsError -> JS S A) : JS S A :=
  fun s =>
    match body s with
    | (inr a, s') => (inr a, s')
    | (inl e, s') => handler e s'
    end.

Definition gets {S A} (f : S -> A) : JS S A := fun s => (inr (f s), s).
Definition modify {S} (f : S -> S) : JS S unit := fun s => (inr tt, f s).

(** A [let] variable local to a block and captured by the closures of its
    body: the body runs on the pair of the local and the outer state, and
    the block sees the final value of the local. *)
Definition with_local {S L A} (init : L) (body : JS (L * S) A) : JS S (A * L) :=
  fun s =>
    match body (init, s) with
    | (inr a, (l, s')) => (inr (a, l), s')
    | (inl e, (_, s')) => (inl e, s')
    end.

Definition outer {S L A} (m : JS S A) : JS (L * S) A :=
  fun '(l, s) => let '(r, s') := m s in (r, (l, s')).

Definition local_modify {S L} (f : L -> L) : JS (L * S) unit :=
  fun '(l, s) => (inr tt, (f l, s)).

(** ** The world the tasks run in *)

(** [clock] and [rng] are the successive answers of [Date.now()] and
    [Math.random()]; [ticks] and [draws] count the answers consumed.
    [consecutive] and [openedUntil] are the module-level variables of the
    circuit breaker. Times are integral milliseconds. *)
Record World := mkWorld {
  clock : nat -> Z;
  ticks : nat;
  rng : nat -> Q;
  draws : nat;
  consecutive : Z;
  openedUntil : Z
}.

Definition Date_now : JS World Z := fun w =>
  (inr (clock w (ticks w)),
   mkWorld (clock w) (S (ticks w)) (rng w) (draws w) (consecutive w) (openedUntil w)).

Definition Math_random : JS World Q := fun w =>
  (inr (rng w (draws w)),
   mkWorld (clock w) (ticks w) (rng w) (S (draws w)) (consecutive w) (openedUntil w)).

Definition set_consecutive (c : Z) : JS World unit :=
  modify (fun w => mkWorld (clock w) (ticks w) (rng w) (draws w) c (openedUntil w)).

Definition set_openedUntil (t : Z) : JS World unit :=
  modify (fun w => mkWorld (clock w) (ticks w) (rng w) (draws w) (consecutive w) t).

(** The world after one more reading of the clock, and after [k] more
    answers of the generator. *)
Definition tick (w : World) : World :=
  mkWorld (clock w) (S (ticks w)) (rng w) (draws w) (consecutive w) (openedUntil w).

Definition drawn (k : nat) (w : World) : World :=
  mkWorld (clock w) (ticks w) (rng w) (k + draws w) (consecutive w) (openedUntil w).

(** [a < b] on the values of [Math.random()]. *)
Definition Qltb (a b : Q) : bool := negb (Qle_bool b a).

(** The numeric literals compared with [Math.random()], as the exact values
    of the doubles they denote. *)
Definition lit_0_3 : Q := 5404319552844595 # 18014398509481984.
Definition lit_0_05 : Q := 3602879701896397 # 72057594037927936.
Definition lit_0_10 : Q := 3602879701896397 # 36028797018963968.

(** ** [retry.onThrow] of the task SDK *)

(** The SDK function is not part of the repository. Its contract, as the
    tasks use it: the callback is run; a value it returns is the result; when
    it throws and attempts remain, it is run again (after a back-off wait,
    which only lets the clock advance); when it throws on attempt number
    [maxAttempts], that error is rethrown. The options the tasks pass are
    [maxAttempts] and the back-off [factor] only: the wrapper is given no way
    to tell one thrown error from another. *)
Fixpoint onThrow_from {S A} (fn : JS S A) (remaining : nat) : JS S A :=
  match remaining with
  | O => throw (new_Error "Max attempts reached")
  | S O => fn
  | S remaining' => try_catch fn (fun _ => onThrow_from fn remaining')
  end.

Definition onThrow {S A} (fn : JS S A) (maxAttempts : nat) : JS S A :=
  onThrow_from fn maxAttempts.

(** ** Graceful degradation *)

Module Degradation.

Inductive LLMModel := primary | secondary.

(** [callLLM(model, prompt, mock)]; the same text in the task file and in
    the standalone test file. *)
Definition callLLM {S} (model : LLMModel) (prompt : JsString) (mock : bool) : JS S JsString :=
  if mock then
    match model with
    | primary => throw (mkError "Primary down" (Some "PRIMARY_DOWN"%string) None)
    | secondary => mret (js "fallback(" ++ slice0 12 prompt ++ js ")")
    end
  else throw (new_Error "Real LLM not implemented").

Record Answer := mkAnswer {
  ok : bool;
  model : string;
  degraded : option bool;
  output : JsString;
  durationMs : Z
}.

(** The task [agents.graceful-degradation]. *)
Definition gracefulDegradation (LLM_MOCK : option string) (prompt : JsString) : JS World Answer :=
  start ← Date_now;
  let mock := bool_decide (LLM_MOCK = Some "1"%string) in
  try_catch
    (a ← callLLM primary prompt mock;
     now ← Date_now;
     mret (mkAnswer true "primary" None a (now - start)))
    (fun _ =>
       try_catch
         (b ← callLLM secondary prompt mock;
          now ← Date_now;
          mret (mkAnswer true "secondary" (Some true) b (now - start)))
         (fun _ =>
            now ← Date_now;
            mret (mkAnswer true "template" (Some true)
                    (js "We're experiencing issues. Draft: " ++ slice0 20 prompt ++ ellipsis)
                    (now - start)))).

(** The standalone copy, [testGracefulDegradation] of test-standalone.ts. *)
Definition testGracefulDegradation (LLM_MOCK : option string) (prompt : JsString) : JS World Answer :=
  start ← Date_now;
  let mock := negb (bool_decide (LLM_MOCK = Some "0"%string)) in
  try_catch
    (a ← callLLM primary prompt mock;
     now ← Date_now;
     mret (mkAnswer true "primary" None a (now - start)))
    (fun _ =>
       try_catch
         (b ← callLLM secondary prompt mock;
          now ← Date_now;
          mret (mkAnswer true "secondary" (Some true) b (now - start)))
         (fun _ =>
            now ← Date_now;
            mret (mkAnswer true "template" (Some true)
                    (js "We're experiencing issues. Draft: " ++ slice0 20 prompt ++ ellipsis)
                    (now - start)))).

(** The fields of an answer that do not depend on the clock. *)
Definition same_answer (a b : JsError + Answer) : Prop :=
  match a, b with
  | inr x, inr y =>
      ok x = ok y /\ model x = model y /\ degraded x = degraded y /\ output x = output y
  | _, _ => False
  end.

(** Every configured tier fails: neither [callLLM primary] nor
    [callLLM secondary] returns a value. *)
Definition all_tiers_fail (mock : bool) (prompt : JsString) : Prop :=
  forall (m : LLMModel) (w : World), exists e, fst (callLLM m prompt mock w) = inl e.

End Degradation.

(** ** Human escalation *)

Module Escalation.

Record Payload := mkPayload {
  data : string;
  resumeToken : option string
}.

(** The object a run returns; the two shapes share [ok] and [durationMs]. *)
Record Reply := mkReply {
  ok : bool;
  escalated : option bool;
  msg : option string;
  token : option string;
  resumed : option bool;
  durationMs : Z
}.

(** [!payload.resumeToken]: the property is missing or the empty string. *)
Definition no_token (p : Payload) : bool :=
  match resumeToken p with
  | None => true
  | Some t => bool_decide (t = ""%string)
  end.

(** The task [agents.human-escalation]; [testHumanEscalation] of the
    standalone file is the same text with a plain [Error]. *)
Definition humanEscalation (p : Payload) : JS World Reply :=
  start ← Date_now;
  if no_token p then
    now ← Date_now;
    mret (mkReply false (Some true)
            (Some "Escalated for review. Re-run with resumeToken to continue."%string)
            (Some "RESUME-123"%string) None (now - start))
  else if bool_decide (resumeToken p = Some "RESUME-123"%string) then
    now ← Date_now;
    mret (mkReply true None None None (Some true) (now - start))
  else throw (new_Error "Invalid resume token").

(** [{ok: true, resumed: true}] *)
Definition is_resumed (r : JsError + Reply) : Prop :=
  exists x, r = inr x /\ ok x = true /\ resumed x = Some true.

(** [{ok: false, escalated: true, resumeToken: T}] *)
Definition is_escalated (T : string) (r : JsError + Reply) : Prop :=
  exists x, r = inr x /\ ok x = false /\ escalated x = Some true /\ token x = Some T.

(** The run was aborted with the given message. *)
Definition fails_with (m : string) (r : JsError + Reply) : Prop :=
  exists e, r = inl e /\ e_message e = m.

(** Successive runs of the task, each starting in the world the previous
    run left behind. *)
Fixpoint invocations (ps : list Payload) (w : World) : list (JsError + Reply) * World :=
  match ps with
  | [] => ([], w)
  | p :: rest =>
      let '(r, w1) := humanEscalation p w in
      let '(rs, w2) := invocations rest w1 in
      (r :: rs, w2)
  end.

End Escalation.

(** ** Circuit breaker *)

Module Breaker.

Record CallResult := mkCall {
  ok : bool;
  status : option Z
}.

Definition maxConsecutive : Z := 5.

(** The simulated upstream passed to [retry.onThrow]. *)
Definition upstream : JS World CallResult :=
  r ← Math_random;
  if Qltb r lit_0_3 then throw (mkError "Upstream 5xx" None (Some 502))
  else mret (mkCall true (Some 200)).

(** [retry.onThrow(..., {maxAttempts: 2, factor: 2}).catch(e => ...)] *)
Definition attempt_call : JS World CallResult :=
  try_catch (onThrow upstream 2)
    (fun e => mret (mkCall false (Some (default 500 (e_status e))))).

(** One turn of the [for] loop. *)
Definition iteration (cooldown : Z) (results : list CallResult) : JS World (list CallResult) :=
  now ← Date_now;
  until ← gets openedUntil;
  if now <? until then mret (results ++ [mkCall false (Some 503)])
  else
    r ← attempt_call;
    c ← gets consecutive;
    set_consecutive (if ok r then 0 else c + 1);;
    c' ← gets consecutive;
    (if maxConsecutive <=? c' then
       t ← Date_now; set_openedUntil (t + cooldown)
     else mret tt);;
    mret (results ++ [r]).

Fixpoint loop (cooldown : Z) (calls : nat) (results : list CallResult) : JS World (list CallResult) :=
  match calls with
  | O => mret results
  | S calls' => results' ← iteration cooldown results; loop cooldown calls' results'
  end.

Record Payload := mkPayload {
  calls : Z;
  cooldownMs : option Z
}.

Record Summary := mkSummary {
  all_ok : bool;
  attempts : nat;
  okCount : nat;
  failCount : nat;
  consecutivelyTripped : bool;
  openUntil : option Z;
  durationMs : Z
}.

(** The task [agents.circuit-breaker]; [testCircuitBreaker] of the standalone
    file is the same text. An integral [calls] gives [Z.to_nat calls] turns. *)
Definition circuitBreaker (p : Payload) : JS World Summary :=
  start ← Date_now;
  let cooldown := default 5000 (cooldownMs p) in
  results ← loop cooldown (Z.to_nat (calls p)) [];
  finish ← Date_now;
  let okc := length (List.filter ok results) in
  let failc := (length results - okc)%nat in
  c ← gets consecutive;
  until ← gets openedUntil;
  mret (mkSummary (Nat.eqb failc 0) (length results) okc failc
          (maxConsecutive <=? c)
          (if until =? 0 then None else Some until)
          (finish - start)).

Definition rejected : CallResult := mkCall false (Some 503).
Definition upstream_failure : CallResult := mkCall false (Some 502).
Definition success : CallResult := mkCall true (Some 200).


End Breaker.

(** ** Partial success *)

Module Batch.

(** What the immediately invoked async function yields for one item. *)
Record Res := mkRes {
  res_ok : bool;
  res_reason : option string
}.

Record ItemResult := mkItem {
  ok : bool;
  attempts : Z;
  reason : option string
}.

(** [e?.code || e?.message] *)
Definition code_or_message (e : JsError) : string :=
  match e_code e with
  | Some c => if bool_decide (c = ""%string) then e_message e else c
  | None => e_message e
  end.

(** [Object.assign(new Error("Token limit"), { code: "TOKEN_LIMIT" })] and
    [Object.assign(new Error("Rate limited"), { code: "RATE_LIMIT" })] *)
Definition token_limit : JsError := mkError "Token limit" (Some "TOKEN_LIMIT"%string) None.
Definition rate_limit : JsError := mkError "Rate limited" (Some "RATE_LIMIT"%string) None.

(** The callback given to [retry.onThrow]; the local is [attempts]. *)
Definition operation : JS (Z * World) Res :=
  local_modify (fun a => a + 1);;
  r ← outer Math_random;
  if Qltb r lit_0_05 then throw token_limit
  else if Qltb r lit_0_10 then throw rate_limit
  else mret (mkRes true None).

(** The body of the [for ... of] loop after [key] is computed. *)
Definition process_item : JS World ItemResult :=
  '(res, attempts) ← with_local 0
      (try_catch (onThrow operation 3)
         (fun e => mret (mkRes false (Some (code_or_message e)))));
  mret (mkItem (res_ok res) attempts (res_reason res)).

Definition key_of (id : string) : string := "item:" +:+ id.

Fixpoint each_item (items : list string) (results : gmap string ItemResult)
  : JS World (gmap string ItemResult) :=
  match items with
  | [] => mret results
  | id :: rest =>
      r ← process_item;
      each_item rest (<[key_of id := r]> results)
  end.

(** [Object.values(results)] *)
Definition values (results : gmap string ItemResult) : list ItemResult :=
  (map_to_list results).*2.

Record Report := mkReport {
  all_ok : bool;
  okCount : nat;
  failedCount : nat;
  durationMs : Z;
  results : gmap string ItemResult
}.

(** The task [agents.partial-success]; [testPartialSuccess] of the standalone
    file is the same text. *)
Definition partialSuccess (items : list string) : JS World Report :=
  start ← Date_now;
  results ← each_item items ∅;
  let okc := length (List.filter ok (values results)) in
  let failed := (length (values results) - okc)%nat in
  finish ← Date_now;
  mret (mkReport (Nat.eqb failed 0) okc failed (finish - start) results).

(** The results record of a run. *)
Definition results_of (r : JsError + Report) : gmap string ItemResult :=
  match r with
  | inr rep => results rep
  | inl _ => ∅
  end.

(** The world in which the item at position [i] of the batch starts: the
    one the items before it have left. *)
Definition start_of (items : list string) (i : nat) (w : World) : World :=
  snd (each_item (take i items) ∅ w).

(** The answers of the generator an item can consume: at most three, one
    per attempt. *)
Definition own_draws (w : World) : Q * Q * Q :=
  (rng w (draws w), rng w (S (draws w)), rng w (S (S (draws w)))).

(** Closed form of [process_item] on the answers [d0], [d1], [d2] of the
    generator: the item result and the number of answers consumed. *)
Definition throws (d : Q) : bool := Qltb d lit_0_05 || Qltb d lit_0_10.

Definition thrown (d : Q) : JsError :=
  if Qltb d lit_0_05 then token_limit else rate_limit.

Definition item_of_draws (d : Q * Q * Q) : ItemResult * nat :=
  let '(d0, d1, d2) := d in
  if throws d0 then
    if throws d1 then
      if throws d2 then (mkItem false 3 (Some (code_or_message (thrown d2))), 3%nat)
      else (mkItem true 3 None, 3%nat)
    else (mkItem true 2 None, 2%nat)
  else (mkItem true 1 None, 1%nat).

End Batch.

(** ** The standalone command-line runner *)

(** The runners and the entry point of test-standalone.ts. They call the
    standalone copies of the four patterns; three of those are the text of
    the tasks above, the fourth is [testGracefulDegradation]. Console output
    is left out. *)
Module Standalone.

(** What a runner returns: [{success: true, result}] or
    [{success: false, error}]. *)
Inductive Outcome (A : Type) : Type :=
| Passed (result : A)
| Failed (error : string).

Arguments Passed {A} result.
Arguments Failed {A} error.

Definition success {A} (o : Outcome A) : bool :=
  match o with
  | Passed _ => true
  | Failed _ => false
  end.

Definition runCircuitBreaker : JS World (Outcome Breaker.Summary) :=
  let payload := Breaker.mkPayload 20 (Some 3000) in
  try_catch
    (result ← Breaker.circuitBreaker payload; mret (Passed result))
    (fun error => mret (Failed (e_message error))).

Definition runPartialSuccess : JS World (Outcome Batch.Report) :=
  let payload := ["a"; "b"; "c"; "d"; "e"; "f"; "g"; "h"]%string in
  try_catch
    (result ← Batch.partialSuccess payload; mret (Passed result))
    (fun error => mret (Failed (e_message error))).

(** The result of the escalation runner: both replies, or the first alone. *)
Inductive EscalationRun : Type :=
| Both (escalation resume : Escalation.Reply)
| Only (escalation : Escalation.Reply).

(** Truthiness of an optional boolean and of an optional string. *)
Definition truthy_bool (b : option bool) : bool := default false b.

Definition truthy_string (s : option string) : bool :=
  match s with
  | Some t => negb (bool_decide (t = ""%string))
  | None => false
  end.

Definition runHumanEscalation : JS World (Outcome EscalationRun) :=
  let payload1 := Escalation.mkPayload "Test data requiring human review" None in
  try_catch
    (result1 ← Escalation.humanEscalation payload1;
     if truthy_bool (Escalation.escalated result1)
        && truthy_string (Escalation.token result1) then
       let payload2 :=
         Escalation.mkPayload "Test data requiring human review"
           (Escalation.token result1) in
       result2 ← Escalation.humanEscalation payload2;
       mret (Passed (Both result1 result2))
     else mret (Passed (Only result1)))
    (fun error => mret (Failed (e_message error))).

Definition runGracefulDegradation (LLM_MOCK : option string)
  : JS World (Outcome Degradation.Answer) :=
  let payload := js "Explain the benefits of error handling in AI systems" in
  try_catch
    (result ← Degradation.testGracefulDegradation LLM_MOCK payload; mret (Passed result))
    (fun error => mret (Failed (e_message error))).

(** The summary [runAll] prints and the code it hands to [process.exit]. *)
Record Exit := mkExit {
  successCount : nat;
  totalTests : nat;
  durationMs : Z;
  exitCode : Z
}.

Definition runAll (LLM_MOCK : option string) : JS World Exit :=
  start ← Date_now;
  cb ← runCircuitBreaker;
  ps ← runPartialSuccess;
  he ← runHumanEscalation;
  gd ← runGracefulDegradation LLM_MOCK;
  finish ← Date_now;
  let passed := length (List.filter id [success cb; success ps; success he; success gd]) in
  let total := 4%nat in
  mret (mkExit passed total (finish - start) (if Nat.eqb passed total then 0 else 1)).

(** The entry point: [argv2] is [process.argv[2]]. The result is the code
    given to [process.exit], or [None] when the script runs to its end
    without calling it. *)
Definition main (argv2 LLM_MOCK : option string) : JS World (option Z) :=
  let pattern :=
    match argv2 with
    | Some s => if bool_decide (s = ""%string) then "all"%string else s
    | None => "all"%string
    end in
  if String.eqb pattern "all" then
    e ← runAll LLM_MOCK; mret (Some (exitCode e))
  else if String.eqb pattern "circuit-breaker" || String.eqb pattern "circuitBreaker" then
    runCircuitBreaker;; mret None
  else if String.eqb pattern "partial-success" || String.eqb pattern "partialSuccess" then
    runPartialSuccess;; mret None
  else if String.eqb pattern "human-escalation" || String.eqb pattern "humanEscalation" then
    runHumanEscalation;; mret None
  else if String.eqb pattern "graceful-degradation" || String.eqb pattern "gracefulDegradation" then
    runGracefulDegradation LLM_MOCK;; mret None
  else mret (Some 1).

(** The names the entry point accepts. *)
Definition known_patterns : list string :=
  ["all"; "circuit-breaker"; "circuitBreaker"; "partial-success"; "partialSuccess";
   "human-escalation"; "humanEscalation"; "graceful-degradation";
   "gracefulDegradation"]%string.

End Standalone.

(** ** Worlds used in the worked examples *)

(** A clock that advances one second per reading, a generator that always
    answers [q], and the breaker variables as the module initialises them. *)
Definition steady_world (q : Q) : World :=
  mkWorld (fun n => 1000 * Z.of_nat n) 0 (fun _ => q) 0 0 0.

(** The same, with the answers of [Math.random()] scripted by a list and
    [q] once the list is used up. *)
Definition scripted_world (script : list Q) (q : Q) : World :=
  mkWorld (fun n => 1000 * Z.of_nat n) 0 (fun n => nth n script q) 0 0 0.

(** Unfolding of the monad operations in proofs. *)
Ltac js_simpl :=
  cbv [mbind mret JS_bind JS_ret throw try_catch gets modify with_local outer
       local_modify Date_now Math_random set_consecutive set_openedUntil];
  cbn [fst snd clock ticks rng draws consecutive openedUntil].

(** * Graceful degradation: the fallback chain *)

Module DegradationFacts.
Import Degradation.

Lemma callLLM_off_fails {S} (m : LLMModel) (prompt : JsString) (s : S) :
  callLLM m prompt false s = (inl (new_Error "Real LLM not implemented"), s).
Proof. reflexivity. Qed.

Lemma all_tiers_fail_off (prompt : JsString) : all_tiers_fail false prompt.
Proof. intros m w. eexists. reflexivity. Qed.

Lemma all_tiers_fail_mock (mock : bool) (prompt : JsString) :
  all_tiers_fail mock prompt -> mock = false.
Proof.
  intros H. destruct mock; [|reflexivity].
  destruct (H secondary (steady_world 0)) as [e He]. discriminate He.
Qed.

Lemma js_nonempty_app (a b c : JsString) : a <> [] -> a ++ b ++ c <> [].
Proof. destruct a; [congruence|discriminate]. Qed.

(** The documented sample run: mock mode answers from the secondary tier
    with the first 12 code units of the prompt. *)
Example mock_mode_answer :
  fst (gracefulDegradation (Some "1"%string)
         (js "Explain the benefits of microservices architecture") (steady_world 0))
  = inr (mkAnswer true "secondary" (Some true) (js "fallback(Explain the )") 1000).
Proof. vm_compute. reflexivity. Qed.

(** C7, as the specification words it, at the input [LLM_MOCK] unset and
    prompt "hi": every tier fails and the answer is labelled "template",
    not "fallback-default". *)
Lemma C7_label_counterexample :
  exists a w',
    gracefulDegradation None (js "hi") (steady_world 0) = (inr a, w') /\
    all_tiers_fail (bool_decide (@None string = Some "1"%string)) (js "hi") /\
    model a <> "fallback-default"%string.
Proof.
  do 2 eexists. split; [vm_compute; reflexivity|]. split.
  - apply all_tiers_fail_off.
  - discriminate.
Qed.

(** C7 (amended): for every prompt, every value of [LLM_MOCK] and every
    world, [gracefulDegradation] returns an answer with [ok: true] and
    never raises; when every tier fails the answer is degraded, is labelled
    [model: "template"], and its output is the fixed sentence followed by the
    first 20 code units of the prompt and an ellipsis: non-empty, a function
    of the prompt alone, and produced without a call to [Math.random()] or
    any provider. *)
Theorem C7_resolve_total (env : option string) (prompt : JsString) (w : World) :
  exists a w',
    gracefulDegradation env prompt w = (inr a, w') /\
    ok a = true /\
    draws w' = draws w /\
    (all_tiers_fail (bool_decide (env = Some "1"%string)) prompt ->
       degraded a = Some true /\
       model a = "template"%string /\
       output a = js "We're experiencing issues. Draft: " ++ slice0 20 prompt ++ ellipsis /\
       output a <> []).
Proof.
  unfold gracefulDegradation.
  destruct (bool_decide (env = Some "1"%string)) eqn:Hm.
  - do 2 eexists. split; [reflexivity|]. split; [reflexivity|]. split; [reflexivity|].
    intros H. apply all_tiers_fail_mock in H. discriminate H.
  - do 2 eexists. split; [reflexivity|]. split; [reflexivity|]. split; [reflexivity|].
    intros _. cbn [degraded model output]. repeat split.
    apply js_nonempty_app. discriminate.
Qed.

Lemma C7_resolve_total_witness :
  exists a w',
    gracefulDegradation (Some "0"%string) (js "Explain the benefits") (steady_world 0) = (inr a, w') /\
    degraded a = Some true /\ model a = "template"%string /\ output a <> [].
Proof.
  destruct (C7_resolve_total (Some "0"%string) (js "Explain the benefits") (steady_world 0))
    as (a & w' & Hrun & _ & _ & Hall).
  exists a, w'. split; [exact Hrun|].
  destruct (Hall (all_tiers_fail_off _)) as (Hd & Hm & _ & Hne).
  auto.
Defined.

(** C10, as stated, at [LLM_MOCK] unset and prompt "hi": the task answers
    from the template tier and the standalone copy from the secondary tier. *)
Lemma C10_equivalence_counterexample :
  ~ same_answer (fst (gracefulDegradation None (js "hi") (steady_world 0)))
                (fst (testGracefulDegradation None (js "hi") (steady_world 0))).
Proof. cbn. intros (_ & H & _). discriminate H. Qed.

(** C10 (amended): the task and the standalone copy return the same [ok],
    [model], [degraded] and [output] exactly when [LLM_MOCK] is "0" or "1";
    for every other value, unset included, the task answers from the
    template tier and the standalone copy from the secondary tier. *)
Theorem C10_agree_iff (env : option string) (prompt : JsString) (w1 w2 : World) :
  (env = Some "0"%string \/ env = Some "1"%string) <->
  same_answer (fst (gracefulDegradation env prompt w1))
              (fst (testGracefulDegradation env prompt w2)).
Proof.
  unfold gracefulDegradation, testGracefulDegradation.
  destruct (decide (env = Some "1"%string)) as [->|H1].
  - cbn. split; [intros _; repeat split | intros _; right; reflexivity].
  - destruct (decide (env = Some "0"%string)) as [->|H0].
    + cbn. split; [intros _; repeat split | intros _; left; reflexivity].
    + rewrite (bool_decide_eq_false_2 _ H1), (bool_decide_eq_false_2 _ H0). cbn.
      split; [intros [?|?]; contradiction | intros (_ & H & _); discriminate H].
Qed.

Lemma C10_agree_iff_witness :
  same_answer (fst (gracefulDegradation (Some "1"%string) (js "hi") (steady_world 0)))
              (fst (testGracefulDegradation (Some "1"%string) (js "hi") (steady_world 0))).
Proof.
  apply (C10_agree_iff (Some "1"%string) (js "hi") (steady_world 0) (steady_world 0)).
  right. reflexivity.
Defined.

End DegradationFacts.

(** * Human escalation: the pause/resume gate *)

Module EscalationFacts.
Import Escalation.

Lemma resume_ok (d : string) (w : World) :
  exists x,
    humanEscalation (mkPayload d (Some "RESUME-123"%string)) w
      = (inr x, snd (Date_now (snd (Date_now w)))) /\
    ok x = true /\ resumed x = Some true.
Proof. eexists. split; [reflexivity|]. split; reflexivity. Qed.

Lemma resume_other (d T : string) (w : World) :
  T <> ""%string -> T <> "RESUME-123"%string ->
  humanEscalation (mkPayload d (Some T)) w
    = (inl (new_Error "Invalid resume token"), snd (Date_now w)).
Proof.
  intros Hne Hother. unfold humanEscalation, no_token. cbn [resumeToken].
  rewrite (bool_decide_eq_false_2 _ Hne).
  rewrite bool_decide_eq_false_2 by congruence.
  reflexivity.
Qed.

(** C2, as stated, at the token "RESUME-123": a first resume succeeds and
    a second resume with the same token succeeds again instead of failing. *)
Lemma C2_second_resume_counterexample :
  let p := mkPayload "Test data requiring human review" (Some "RESUME-123"%string) in
  exists r1 r2 w',
    invocations [p; p] (steady_world 0) = ([r1; r2], w') /\
    is_resumed r1 /\ is_resumed r2 /\ ~ (exists e, r2 = inl e).
Proof.
  cbv zeta. do 3 eexists. split; [vm_compute; reflexivity|].
  split; [|split].
  - eexists. split; [reflexivity|]. split; reflexivity.
  - eexists. split; [reflexivity|]. split; reflexivity.
  - intros [e He]. discriminate He.
Qed.

(** C2 (amended): resuming with the token the gate hands out, "RESUME-123",
    returns [{ok: true, resumed: true}] on every invocation, the second and
    later ones included: the gate keeps no record of used tokens and no run
    fails with TokenAlreadyUsed; a resume with any other non-empty token
    aborts with "Invalid resume token". *)
Theorem C2_resume_every_time (d : string) (n : nat) (w : World) :
  Forall is_resumed
    (fst (invocations (repeat (mkPayload d (Some "RESUME-123"%string)) n) w)) /\
  (forall T : string, T <> ""%string -> T <> "RESUME-123"%string ->
     fails_with "Invalid resume token"
       (fst (humanEscalation (mkPayload d (Some T)) w))).
Proof.
  split.
  - revert w. induction n as [|n IH]; intros w; cbn [repeat invocations].
    + constructor.
    + destruct (resume_ok d w) as (x & Hrun & Hok & Hres). rewrite Hrun.
      specialize (IH (snd (Date_now (snd (Date_now w))))).
      destruct (invocations _ _) as [rs w2]. cbn [fst] in *.
      constructor; [|exact IH]. exists x. auto.
  - intros T Hne Hother. rewrite (resume_other d T w Hne Hother).
    eexists. split; reflexivity.
Qed.

Lemma C2_resume_every_time_witness :
  Forall is_resumed
    (fst (invocations (repeat (mkPayload "d" (Some "RESUME-123"%string)) 3) (steady_world 0))) /\
  fails_with "Invalid resume token"
    (fst (humanEscalation (mkPayload "d" (Some "INVALID-TOKEN"%string)) (steady_world 0))).
Proof.
  destruct (C2_resume_every_time "d" 3 (steady_world 0)) as [Hall Hother].
  split; [exact Hall|].
  apply Hother; discriminate.
Defined.

(** C9: a run without a resume credential (the property is missing or
    empty) returns [{ok: false, escalated: true}] together with a resume
    token [T], and any later run carrying exactly [T] returns
    [{ok: true, resumed: true}]. The gate has neither expiry nor resolution,
    so the second half holds in every later world. *)
Theorem C9_escalate_then_resume (p : Payload) (w : World) :
  no_token p = true ->
  exists T r1 w1,
    humanEscalation p w = (r1, w1) /\
    is_escalated T r1 /\
    forall (d' : string) (w' : World),
      is_resumed (fst (humanEscalation (mkPayload d' (Some T)) w')).
Proof.
  intros Hno. exists "RESUME-123"%string. do 2 eexists.
  split; [unfold humanEscalation; rewrite Hno; reflexivity|]. split.
  - eexists. split; [reflexivity|]. repeat split.
  - intros d' w'. destruct (resume_ok d' w') as (x & Hrun & Hok & Hres).
    rewrite Hrun. exists x. auto.
Qed.

Lemma C9_escalate_then_resume_witness :
  exists T r1 w1,
    humanEscalation (mkPayload "Test data requiring human review" None) (steady_world 0)
      = (r1, w1) /\
    is_escalated T r1 /\
    is_resumed (fst (humanEscalation
                       (mkPayload "Test data requiring human review" (Some T)) w1)).
Proof.
  destruct (C9_escalate_then_resume
              (mkPayload "Test data requiring human review" None) (steady_world 0))
    as (T & r1 & w1 & Hrun & Hesc & Hres).
  - reflexivity.
  - exists T, r1, w1. split; [exact Hrun|]. split; [exact Hesc|]. apply Hres.
Defined.

End EscalationFacts.

(** * Circuit breaker *)

Module BreakerFacts.
Import Breaker.

Lemma upstream_eq (w : World) :
  upstream w =
    if Qltb (rng w (draws w)) lit_0_3
    then (inl (mkError "Upstream 5xx" None (Some 502)), drawn 1 w)
    else (inr success, drawn 1 w).
Proof.
  unfold upstream. js_simpl. destruct (Qltb _ _); reflexivity.
Qed.

(** The guarded call never throws; it consumes one or two answers of the
    generator, and fails exactly when both are below 0.3. *)
Lemma attempt_call_eq (w : World) :
  attempt_call w =
    if Qltb (rng w (draws w)) lit_0_3 then
      if Qltb (rng w (S (draws w))) lit_0_3
      then (inr upstream_failure, drawn 2 w)
      else (inr success, drawn 2 w)
    else (inr success, drawn 1 w).
Proof.
  unfold attempt_call, onThrow, onThrow_from, try_catch.
  rewrite upstream_eq.
  destruct (Qltb (rng w (draws w)) lit_0_3); [|reflexivity].
  rewrite upstream_eq. cbn [drawn rng draws Nat.add].
  destruct (Qltb _ _); reflexivity.
Qed.

Lemma attempt_call_cases (w : World) :
  exists r k,
    attempt_call w = (inr r, drawn k w) /\
    (r = success \/ r = upstream_failure) /\ (1 <= k <= 2)%nat.
Proof.
  rewrite attempt_call_eq.
  destruct (Qltb _ _); [destruct (Qltb _ _)|]; do 2 eexists;
    (split; [reflexivity|]); (split; [auto|lia]).
Qed.

(** A turn taken while the breaker is open only reads the clock. *)
Lemma iteration_rejected (cd : Z) (rs : list CallResult) (w : World) :
  clock w (ticks w) < openedUntil w ->
  iteration cd rs w = (inr (rs ++ [rejected]), tick w).
Proof.
  intros H. unfold iteration. js_simpl.
  apply Z.ltb_lt in H. rewrite H. reflexivity.
Qed.

(** The world a turn leaves when its call was attempted with outcome [r]
    after [k] answers of the generator. *)
Lemma iteration_attempted (cd : Z) (rs : list CallResult) (w : World) :
  openedUntil w <= clock w (ticks w) ->
  exists r k,
    attempt_call (tick w) = (inr r, drawn k (tick w)) /\
    (r = success \/ r = upstream_failure) /\ (1 <= k <= 2)%nat /\
    iteration cd rs w =
      (inr (rs ++ [r]),
       let c := if ok r then 0 else consecutive w + 1 in
       if maxConsecutive <=? c
       then mkWorld (clock w) (S (S (ticks w))) (rng w) (k + draws w) c
              (clock w (S (ticks w)) + cd)
       else mkWorld (clock w) (S (ticks w)) (rng w) (k + draws w) c (openedUntil w)).
Proof.
  intros H. destruct (attempt_call_cases (tick w)) as (r & k & Hcall & Hr & Hk).
  exists r, k. repeat (split; [assumption|]).
  unfold iteration. js_simpl.
  apply Z.ltb_ge in H. rewrite H.
  fold (tick w). rewrite Hcall. cbn [drawn tick clock ticks rng draws consecutive openedUntil].
  destruct (maxConsecutive <=? _); reflexivity.
Qed.

Lemma iteration_total (cd : Z) (rs : list CallResult) (w : World) :
  exists r w', iteration cd rs w = (inr (rs ++ [r]), w').
Proof.
  destruct (Z_lt_le_dec (clock w (ticks w)) (openedUntil w)) as [H|H].
  - rewrite (iteration_rejected cd rs w H). eauto.
  - destruct (iteration_attempted cd rs w H) as (r & k & _ & _ & _ & Hrun).
    rewrite Hrun. eauto.
Qed.



Lemma loop_extends (cd : Z) (n : nat) :
  forall (rs : list CallResult) (w : World),
  exists ext w', loop cd n rs w = (inr (rs ++ ext), w') /\ length ext = n.
Proof.
  induction n as [|n IH]; intros rs w.
  - exists [], w. rewrite app_nil_r. split; reflexivity.
  - destruct (iteration_total cd rs w) as (r & w1 & Hturn).
    destruct (IH (rs ++ [r]) w1) as (ext & w' & Hloop & Hlen).
    exists (r :: ext), w'. split; [|cbn; lia].
    cbn [loop]. unfold mbind, JS_bind. rewrite Hturn, Hloop.
    rewrite <- app_assoc. reflexivity.
Qed.



(** A run never throws and records one result per requested call. *)
Lemma circuitBreaker_total (p : Payload) (w : World) :
  exists s w',
    circuitBreaker p w = (inr s, w') /\ attempts s = Z.to_nat (calls p).
Proof.
  unfold circuitBreaker. unfold mbind, JS_bind, mret, JS_ret, gets, Date_now.
  fold (tick w).
  destruct (loop_extends (default 5000 (cooldownMs p)) (Z.to_nat (calls p)) [] (tick w))
    as (ext & w1 & Hloop & Hlen).
  rewrite Hloop. do 2 eexists. split; [reflexivity|]. exact Hlen.
Qed.

(** Seven calls against an upstream that always fails, default cooldown:
    five upstream failures trip the breaker, the last two calls are
    rejected. *)
Example always_failing_run :
  fst (loop 5000 7 [] (tick (steady_world (1 # 10)%Q)))
    = inr (repeat upstream_failure 5 ++ repeat rejected 2) /\
  fst (circuitBreaker (mkPayload 7 None) (steady_world (1 # 10)%Q))
    = inr (mkSummary false 7 0 7 true (Some 11000) 9000).
Proof. split; vm_compute; reflexivity. Qed.

(** The turns of the worked examples: five failing calls (two answers
    below 0.3 each) and then answers above 0.3. *)
Lemma trip_example :
  loop 100 5 [] (tick (scripted_world (repeat (1 # 10)%Q 10) (1 # 2)%Q))
  = (inr (repeat upstream_failure 5),
     mkWorld (fun n => 1000 * Z.of_nat n) 7 (fun n => nth n (repeat (1 # 10)%Q 10) (1 # 2)%Q)
       10 5 6100).
Proof. vm_compute. reflexivity. Qed.

(** C4, as stated, at [{calls: 6, cooldownMs: 100}] with five failing calls
    followed by a successful one: after the successful call the counter is
    0 but [openedUntil] still holds 6100, and the run reports
    [openUntil: 6100], not null. *)
Lemma C4_openUntil_kept_counterexample :
  let w := scripted_world (repeat (1 # 10)%Q 10) (1 # 2)%Q in
  exists s w',
    fst (loop 100 6 [] (tick w)) = inr (repeat upstream_failure 5 ++ [success]) /\
    circuitBreaker (mkPayload 6 (Some 100)) w = (inr s, w') /\
    consecutive w' = 0 /\ openedUntil w' = 6100 /\ openUntil s = Some 6100.
Proof.
  cbv zeta. do 2 eexists. split; [vm_compute; reflexivity|].
  split; [vm_compute; reflexivity|]. repeat split.
Qed.

(** C4 (amended): after every turn whose wrapped operation succeeds,
    [consecutive] is 0 and [openedUntil] keeps the value it had before the
    turn, a value not above that turn's reading of the clock (it is not
    cleared, and it is what the run reports as [openUntil]); and a turn
    changes [openedUntil] only when its call failed and brought [consecutive]
    to [maxConsecutive] or more, the new value being the clock reading taken
    at that moment plus the cooldown. *)
Theorem C4_success_resets_counter (cd : Z) (rs : list CallResult) (w : World) :
  exists r w',
    iteration cd rs w = (inr (rs ++ [r]), w') /\
    (ok r = true ->
       consecutive w' = 0 /\ openedUntil w' = openedUntil w /\
       openedUntil w' <= clock w (ticks w)) /\
    (openedUntil w' <> openedUntil w ->
       ok r = false /\ maxConsecutive <= consecutive w' /\
       openedUntil w' = clock w (S (ticks w)) + cd).
Proof.
  destruct (Z_lt_le_dec (clock w (ticks w)) (openedUntil w)) as [H|H].
  - rewrite (iteration_rejected cd rs w H). do 2 eexists. split; [reflexivity|].
    cbn [ok rejected tick openedUntil]. split; [discriminate|congruence].
  - destruct (iteration_attempted cd rs w H) as (r & k & _ & Hr & _ & Hrun).
    rewrite Hrun. do 2 eexists. split; [reflexivity|]. cbv zeta.
    destruct Hr as [-> | ->]; cbn [ok success upstream_failure].
    + cbn [Z.leb maxConsecutive Z.compare consecutive openedUntil].
      split; [auto|congruence].
    + destruct (maxConsecutive <=? consecutive w + 1) eqn:Hc;
        cbn [consecutive openedUntil]; (split; [discriminate|]).
      * apply Z.leb_le in Hc. auto.
      * congruence.
Qed.

Lemma C4_success_resets_counter_witness :
  let w := mkWorld (fun n => 1000 * Z.of_nat n) 7 (fun _ => (1 # 2)%Q) 10 5 6100 in
  exists r w',
    iteration 100 [] w = (inr [r], w') /\
    consecutive w' = 0 /\ openedUntil w' = 6100.
Proof.
  cbv zeta.
  destruct (C4_success_resets_counter 100 []
              (mkWorld (fun n => 1000 * Z.of_nat n) 7 (fun _ => (1 # 2)%Q) 10 5 6100))
    as (r & w' & Hrun & Hok & _).
  exists r, w'. split; [exact Hrun|].
  assert (Hr : ok r = true).
  { vm_compute in Hrun. injection Hrun as <- _. reflexivity. }
  destruct (Hok Hr) as (Hc & Ho & _). split; [exact Hc|exact Ho].
Defined.







End BreakerFacts.

(** * Partial success: the batch processor *)

Module BatchFacts.
Import Batch.

Lemma operation_eq (a : Z) (w : World) :
  operation (a, w) =
    (if throws (rng w (draws w)) then inl (thrown (rng w (draws w)))
     else inr (mkRes true None),
     (a + 1, drawn 1 w)).
Proof.
  unfold operation, throws, thrown. js_simpl.
  destruct (Qltb _ lit_0_05); [reflexivity|].
  destruct (Qltb _ lit_0_10); reflexivity.
Qed.

(** [process_item] never throws, and is its closed form on the three
    answers that follow the cursor of the generator. *)
Lemma process_item_eq (w : World) :
  process_item w =
    (inr (fst (item_of_draws (own_draws w))),
     drawn (snd (item_of_draws (own_draws w))) w).
Proof.
  unfold process_item, onThrow, onThrow_from, item_of_draws, own_draws.
  unfold mbind, JS_bind, with_local, try_catch.
  rewrite operation_eq.
  destruct (throws (rng w (draws w))); [|reflexivity].
  rewrite operation_eq. cbn [drawn rng draws Nat.add].
  destruct (throws (rng w (S (draws w)))); [|reflexivity].
  rewrite operation_eq. cbn [drawn rng draws Nat.add].
  destruct (throws (rng w (S (S (draws w))))); reflexivity.
Qed.

Lemma item_of_draws_shape (d : Q * Q * Q) :
  let '(r, k) := item_of_draws d in
  attempts r = Z.of_nat k /\ (1 <= k <= 3)%nat /\
  (ok r = true <-> reason r = None) /\
  (ok r = false ->
     reason r = Some "TOKEN_LIMIT"%string \/ reason r = Some "RATE_LIMIT"%string).
Proof.
  destruct d as [[d0 d1] d2]. unfold item_of_draws, thrown.
  destruct (throws d0); [destruct (throws d1); [destruct (throws d2)|]|];
    cbn [attempts ok reason]; (split; [reflexivity|]); (split; [lia|]);
    (split; [split; intros; congruence|]); try discriminate.
  intros _. destruct (Qltb d2 lit_0_05); cbn; auto.
Qed.

Lemma each_item_cons (id : string) (rest : list string)
    (acc : gmap string ItemResult) (w : World) :
  each_item (id :: rest) acc w =
    each_item rest (<[key_of id := fst (item_of_draws (own_draws w))]> acc)
      (drawn (snd (item_of_draws (own_draws w))) w).
Proof.
  cbn [each_item]. unfold mbind, JS_bind. rewrite process_item_eq. reflexivity.
Qed.

(** The loop over a batch split in two; the world a prefix leaves does not
    depend on the results gathered so far. *)
Lemma each_item_split (l1 l2 : list string) :
  forall (acc : gmap string ItemResult) (w : World),
  exists m1,
    each_item l1 acc w = (inr m1, snd (each_item l1 ∅ w)) /\
    each_item (l1 ++ l2) acc w = each_item l2 m1 (snd (each_item l1 ∅ w)).
Proof.
  induction l1 as [|id l1 IH]; intros acc w.
  - exists acc. split; reflexivity.
  - cbn [app]. rewrite !each_item_cons.
    destruct (IH (<[key_of id := fst (item_of_draws (own_draws w))]> acc)
                 (drawn (snd (item_of_draws (own_draws w))) w)) as (m1 & H1 & H2).
    destruct (IH (<[key_of id := fst (item_of_draws (own_draws w))]> ∅)
                 (drawn (snd (item_of_draws (own_draws w))) w)) as (m0 & H0 & _).
    exists m1. rewrite H0. cbn [snd]. split; assumption.
Qed.

Lemma each_item_total (items : list string) (acc : gmap string ItemResult) (w : World) :
  exists m, each_item items acc w = (inr m, snd (each_item items ∅ w)).
Proof.
  destruct (each_item_split items [] acc w) as (m & H & _). eauto.
Qed.

Lemma key_of_inj (a b : string) : key_of a = key_of b -> a = b.
Proof. unfold key_of. cbn. intros H. injection H as H. exact H. Qed.

(** Keys of items that are not in the batch keep what the record held. *)
Lemma each_item_keep (k : string) (items : list string) :
  (forall id, id ∈ items -> k <> key_of id) ->
  forall (acc m : gmap string ItemResult) (w w' : World),
  each_item items acc w = (inr m, w') -> m !! k = acc !! k.
Proof.
  induction items as [|id rest IH]; intros Hk acc m w w' Hrun.
  - cbn in Hrun. injection Hrun as <- _. reflexivity.
  - rewrite each_item_cons in Hrun.
    rewrite (IH (fun x Hx => Hk x (list_elem_of_further _ _ _ Hx)) _ _ _ _ Hrun).
    apply lookup_insert_ne. intros Heq. apply (Hk id); [left|]. congruence.
Qed.

Lemma each_item_dom (items : list string) :
  forall (acc m : gmap string ItemResult) (w w' : World),
  each_item items acc w = (inr m, w') ->
  forall k, is_Some (m !! k) <->
            is_Some (acc !! k) \/ exists id, id ∈ items /\ k = key_of id.
Proof.
  induction items as [|id rest IH]; intros acc m w w' Hrun k.
  - cbn in Hrun. injection Hrun as <- _. split; [auto|].
    intros [H|(id & Hin & _)]; [exact H|]. inversion Hin.
  - rewrite each_item_cons in Hrun. rewrite (IH _ _ _ _ Hrun k).
    rewrite lookup_insert_is_Some. split.
    + intros [[Heq|[_ H]]|(x & Hin & Hx)].
      * right. exists id. split; [left|congruence].
      * left. exact H.
      * right. exists x. split; [right; exact Hin|exact Hx].
    + intros [H|(x & Hin & Hx)].
      * destruct (decide (key_of id = k)); [left; left; assumption|left; right; auto].
      * apply elem_of_cons in Hin as [->|Hin].
        -- left. left. congruence.
        -- right. exists x. auto.
Qed.

(** Every item of a batch consumes at least one answer of the generator:
    its operation is invoked. *)
Lemma each_item_draws (items : list string) :
  forall (acc : gmap string ItemResult) (w : World),
  (draws w + length items <= draws (snd (each_item items acc w)))%nat.
Proof.
  induction items as [|id rest IH]; intros acc w.
  - cbn. lia.
  - rewrite each_item_cons.
    pose proof (item_of_draws_shape (own_draws w)) as Hs.
    destruct (item_of_draws (own_draws w)) as [r k]. destruct Hs as (_ & Hk & _).
    specialize (IH (<[key_of id := r]> acc) (drawn k w)).
    cbn [fst snd drawn draws length] in *. lia.
Qed.

(** The result recorded for the item at position [i] of a batch without
    repetitions is the one [process_item] computes in the world where that
    item starts. *)
Lemma each_item_lookup (items : list string) (acc m : gmap string ItemResult)
    (w w' : World) (i : nat) (id : string) :
  NoDup items -> items !! i = Some id ->
  each_item items acc w = (inr m, w') ->
  m !! key_of id = Some (fst (item_of_draws (own_draws (start_of items i w)))).
Proof.
  intros Hnd Hi Hrun.
  pose proof (take_drop_middle items i id Hi) as Hsplit.
  rewrite <- Hsplit in Hrun, Hnd.
  destruct (each_item_split (take i items) (id :: drop (S i) items) acc w)
    as (m1 & _ & Happ).
  rewrite Happ in Hrun. fold (start_of items i w) in Hrun.
  rewrite each_item_cons in Hrun.
  apply NoDup_app in Hnd as (_ & _ & Hnd). apply NoDup_cons in Hnd as [Hnotin _].
  rewrite (each_item_keep (key_of id) (drop (S i) items)) with (1 := fun x Hx Heq =>
             Hnotin (eq_ind_r (fun y => y ∈ drop (S i) items) Hx (key_of_inj _ _ Heq)))
             (2 := Hrun).
  apply lookup_insert_eq.
Qed.

Lemma filter_all {A} (f : A -> bool) (l : list A) :
  (length l - length (List.filter f l))%nat = 0%nat <-> forall x, x ∈ l -> f x = true.
Proof.
  assert (Hle : forall l : list A, (length (List.filter f l) <= length l)%nat).
  { intros k. induction k as [|a k IH]; cbn; [lia|]. destruct (f a); cbn; lia. }
  induction l as [|a l IH]; cbn [List.filter length].
  - split; [intros _ x Hx; inversion Hx|reflexivity].
  - destruct (f a) eqn:Hfa; cbn [length].
    + rewrite Nat.sub_succ, IH. split.
      * intros H x Hx. apply elem_of_cons in Hx as [->|Hx]; auto.
      * intros H x Hx. apply H. right. exact Hx.
    + specialize (Hle l). split; [lia|].
      intros H. specialize (H a (list_elem_of_here _ _)). congruence.
Qed.

Lemma partialSuccess_eq (items : list string) (w : World) :
  exists m w1,
    each_item items ∅ (tick w) = (inr m, w1) /\
    partialSuccess items w =
      (inr (mkReport
              (Nat.eqb (length (values m) - length (List.filter ok (values m))) 0)
              (length (List.filter ok (values m)))
              (length (values m) - length (List.filter ok (values m)))
              (clock w1 (ticks w1) - clock w (ticks w))
              m),
       tick w1).
Proof.
  destruct (each_item_total items ∅ (tick w)) as (m & Hm).
  exists m, (snd (each_item items ∅ (tick w))). split; [exact Hm|].
  unfold partialSuccess. unfold mbind, JS_bind, mret, JS_ret, Date_now.
  fold (tick w). destruct (each_item items ∅ (tick w)) as [r w1].
  cbn [snd] in Hm. injection Hm as ->. reflexivity.
Qed.

Lemma each_item_values (P : ItemResult -> Prop) (items : list string) :
  (forall d, P (fst (item_of_draws d))) ->
  forall (acc m : gmap string ItemResult) (w w' : World),
  each_item items acc w = (inr m, w') ->
  (forall k r, acc !! k = Some r -> P r) ->
  forall k r, m !! k = Some r -> P r.
Proof.
  intros HP. induction items as [|id rest IH]; intros acc m w w' Hrun Hacc k r Hk.
  - cbn in Hrun. injection Hrun as <- _. eauto.
  - rewrite each_item_cons in Hrun. apply (IH _ _ _ _ Hrun) with (k := k); [|exact Hk].
    intros k' r' Hk'. apply lookup_insert_Some in Hk' as [[_ <-]|[_ Hk']]; eauto.
Qed.

Lemma values_all (P : ItemResult -> Prop) (m : gmap string ItemResult) :
  (forall x, x ∈ values m -> P x) <-> (forall k r, m !! k = Some r -> P r).
Proof.
  unfold values. split.
  - intros H k r Hk. apply H. apply list_elem_of_fmap. exists (k, r).
    split; [reflexivity|]. apply elem_of_map_to_list. exact Hk.
  - intros H x Hx. apply list_elem_of_fmap in Hx as ([k r] & -> & Hkr).
    apply elem_of_map_to_list in Hkr. eauto.
Qed.

(** An operation that throws TOKEN_LIMIT is run again by the wrapper. *)
Lemma token_limit_attempted_again (w : World) :
  Qltb (rng w (draws w)) lit_0_05 = true ->
  exists r k, process_item w = (inr r, drawn k w) /\ (2 <= k)%nat /\ 2 <= attempts r.
Proof.
  intros H. rewrite process_item_eq. do 2 eexists. split; [reflexivity|].
  unfold item_of_draws, own_draws, throws. rewrite H. cbn [orb].
  destruct (_ || _); [destruct (_ || _)|]; cbn; lia.
Qed.

(** C1 fails on the code. With 0.01 as the first answer of
    [Math.random()] the operation throws TOKEN_LIMIT; the wrapper runs it a
    second time, and with 0.5 as the next answer the item is reported
    [{ok: true, attempts: 2}]. When every answer is 0.01 the operation is
    run three times before the failure is returned. *)
Lemma C1_token_limit_is_retried :
  process_item (scripted_world [(1 # 100)%Q] (1 # 2)%Q)
    = (inr (mkItem true 2 None), drawn 2 (scripted_world [(1 # 100)%Q] (1 # 2)%Q)) /\
  process_item (steady_world (1 # 100)%Q)
    = (inr (mkItem false 3 (Some "TOKEN_LIMIT"%string)), drawn 3 (steady_world (1 # 100)%Q)) /\
  results_of (fst (partialSuccess ["a"%string] (steady_world (1 # 100)%Q))) !! "item:a"%string
    = Some (mkItem false 3 (Some "TOKEN_LIMIT"%string)).
Proof. repeat split; vm_compute; reflexivity. Qed.

(** C3, as stated, on the batch ["a"]: the first run finalises item "a" as a
    success after one attempt; the second run of the same batch invokes the
    operation again, three times, and returns a different result. *)
Lemma C3_replay_counterexample :
  let w := scripted_world [(1 # 2)%Q; (7 # 100)%Q; (7 # 100)%Q; (7 # 100)%Q] (1 # 2)%Q in
  exists rep1 w1 rep2 w2,
    partialSuccess ["a"%string] w = (inr rep1, w1) /\
    partialSuccess ["a"%string] w1 = (inr rep2, w2) /\
    results rep1 !! "item:a"%string = Some (mkItem true 1 None) /\
    results rep2 !! "item:a"%string = Some (mkItem false 3 (Some "RATE_LIMIT"%string)) /\
    draws w1 = 1%nat /\ draws w2 = 4%nat.
Proof.
  cbv zeta. do 4 eexists.
  split; [vm_compute; reflexivity|]. split; [vm_compute; reflexivity|].
  repeat split; vm_compute; reflexivity.
Qed.

(** C3 (amended): every run of [partialSuccess] starts from an empty
    results record and processes every listed item afresh, whatever an
    earlier run finalised: the record it returns holds exactly the keys
    [item:<id>] of the listed items, each result reports at least one attempt
    made in this run, and the run consumes at least one answer of the
    generator per listed item. The key is used only to index the returned
    record. *)
Theorem C3_every_run_reprocesses (items : list string) (w : World) :
  exists rep w',
    partialSuccess items w = (inr rep, w') /\
    (forall k, is_Some (results rep !! k) <-> exists id, id ∈ items /\ k = key_of id) /\
    (forall k r, results rep !! k = Some r -> 1 <= attempts r <= 3) /\
    (draws w + length items <= draws w')%nat.
Proof.
  destruct (partialSuccess_eq items w) as (m & w1 & Hm & Hrun).
  rewrite Hrun. do 2 eexists. split; [reflexivity|]. cbn [results].
  split; [|split].
  - intros k. rewrite (each_item_dom items _ _ _ _ Hm k).
    rewrite lookup_empty. split; [intros [[x Hx]|H]; [discriminate|exact H]|auto].
  - eapply (each_item_values (fun r => 1 <= attempts r <= 3) items); [|exact Hm|].
    + intros d. pose proof (item_of_draws_shape d) as Hs.
      destruct (item_of_draws d) as [r k]. cbn [fst]. lia.
    + intros k r Hk. rewrite lookup_empty in Hk. discriminate.
  - pose proof (each_item_draws items ∅ (tick w)) as Hd.
    rewrite Hm in Hd. cbn [snd tick draws] in *. exact Hd.
Qed.

Lemma C3_every_run_reprocesses_witness :
  exists rep w',
    partialSuccess ["a"; "b"]%string (steady_world (1 # 2)%Q) = (inr rep, w') /\
    is_Some (results rep !! "item:b"%string) /\
    (2 <= draws w')%nat.
Proof.
  destruct (C3_every_run_reprocesses ["a"; "b"]%string (steady_world (1 # 2)%Q))
    as (rep & w' & Hrun & Hdom & _ & Hd).
  exists rep, w'. split; [exact Hrun|]. split; [|exact Hd].
  apply Hdom. exists "b"%string. split; [|reflexivity].
  right. left.
Defined.

Lemma Qltb_lt (a b : Q) : Qltb a b = true <-> (a < b)%Q.
Proof.
  unfold Qltb. rewrite negb_true_iff. split.
  - intros H. apply Qnot_le_lt. intros Hle. apply Qle_bool_iff in Hle. congruence.
  - intros H. destruct (Qle_bool b a) eqn:Hb; [|reflexivity].
    apply Qle_bool_iff in Hb. apply Qlt_not_le in H. contradiction.
Qed.

(** An answer that raises TOKEN_LIMIT is below the RATE_LIMIT bound too, so
    an attempt throws exactly when its answer is below 0.10. *)
Lemma throws_eq (d : Q) : throws d = Qltb d lit_0_10.
Proof.
  unfold throws. destruct (Qltb d lit_0_05) eqn:H5; [|reflexivity].
  cbn [orb]. symmetry. apply Qltb_lt. apply Qltb_lt in H5.
  apply Qlt_trans with (1 := H5). reflexivity.
Qed.

Lemma each_item_lookup_last (items : list string) (acc m : gmap string ItemResult)
    (w w' : World) (i : nat) (id : string) :
  items !! i = Some id -> id ∉ drop (S i) items ->
  each_item items acc w = (inr m, w') ->
  m !! key_of id = Some (fst (item_of_draws (own_draws (start_of items i w)))).
Proof.
  intros Hi Hlast Hrun.
  pose proof (take_drop_middle items i id Hi) as Hsplit.
  rewrite <- Hsplit in Hrun.
  destruct (each_item_split (take i items) (id :: drop (S i) items) acc w)
    as (m1 & _ & Happ).
  rewrite Happ in Hrun. fold (start_of items i w) in Hrun.
  rewrite each_item_cons in Hrun.
  rewrite (each_item_keep (key_of id) (drop (S i) items)) with (2 := Hrun).
  - apply lookup_insert_eq.
  - intros x Hx Heq. apply key_of_inj in Heq. subst x. contradiction.
Qed.

Lemma last_occurrence (id : string) (l : list string) :
  id ∈ l -> exists i, l !! i = Some id /\ id ∉ drop (S i) l.
Proof.
  induction l as [|a l IH]; intros Hin; [inversion Hin|].
  destruct (decide (id ∈ l)) as [Hl|Hl].
  - destruct (IH Hl) as (i & Hi & Hlast). exists (S i). split; assumption.
  - apply elem_of_cons in Hin as [->|Hin]; [|contradiction].
    exists 0%nat. split; [reflexivity|exact Hl].
Qed.

(** What [process_item] records, on the answers its attempts receive. *)
Lemma item_of_draws_reason (d0 d1 d2 : Q) :
  let r := fst (item_of_draws (d0, d1, d2)) in
  (ok r = false <->
     Qltb d0 lit_0_10 = true /\ Qltb d1 lit_0_10 = true /\ Qltb d2 lit_0_10 = true) /\
  (ok r = true -> reason r = None) /\
  (ok r = false ->
     reason r = Some (if Qltb d2 lit_0_05 then "TOKEN_LIMIT" else "RATE_LIMIT")%string).
Proof.
  unfold item_of_draws, thrown. rewrite !throws_eq. cbv zeta.
  destruct (Qltb d0 lit_0_10); [destruct (Qltb d1 lit_0_10); [destruct (Qltb d2 lit_0_10)|]|];
    cbn [fst ok reason];
    (split; [split; [try discriminate; auto | intros (? & ? & ?); congruence]|]);
    (split; [try discriminate; auto|]); try discriminate.
  intros _. destruct (Qltb d2 lit_0_05); reflexivity.
Qed.

(** C6: for every batch, whichever of its items fail, [partialSuccess]
    returns; its record has a result under [item:<id>] for exactly the listed
    items; the result of each item is the one [process_item] computes in the
    world where the item starts (its last occurrence, should it be listed
    more than once): the success flag is false exactly when its three
    attempts all throw, the attempts reported are the invocations made
    (between 1 and 3, one answer of the generator each), and the reason is
    absent on success and the code of the last error, TOKEN_LIMIT or
    RATE_LIMIT, on failure; the result of an item is the same in any other
    batch, for instance the batch without the failing items, in which its
    own attempts receive the same answers; and the overall flag is true
    exactly when every recorded result is a success. *)
Theorem C6_batch_isolation (items : list string) (w : World) :
  exists rep w',
    partialSuccess items w = (inr rep, w') /\
    (forall k, is_Some (results rep !! k) <-> exists id, id ∈ items /\ k = key_of id) /\
    (forall id, id ∈ items ->
       exists i r,
         items !! i = Some id /\ (id ∉ drop (S i) items) /\
         results rep !! key_of id = Some r /\
         (let v := start_of items i (tick w) in
          process_item v = (inr r, drawn (Z.to_nat (attempts r)) v) /\
         1 <= attempts r <= 3 /\
         (ok r = false <->
            Qltb (rng v (draws v)) lit_0_10 = true /\
            Qltb (rng v (S (draws v))) lit_0_10 = true /\
            Qltb (rng v (S (S (draws v)))) lit_0_10 = true) /\
         (ok r = true -> reason r = None) /\
         (ok r = false ->
            reason r = Some (if Qltb (rng v (S (S (draws v)))) lit_0_05
                             then "TOKEN_LIMIT" else "RATE_LIMIT")%string))) /\
    (forall (items2 : list string) (v : World) (i j : nat) (id : string),
       items !! i = Some id -> id ∉ drop (S i) items ->
       items2 !! j = Some id -> id ∉ drop (S j) items2 ->
       own_draws (start_of items i (tick w)) = own_draws (start_of items2 j (tick v)) ->
       results rep !! key_of id
         = results_of (fst (partialSuccess items2 v)) !! key_of id) /\
    (all_ok rep = true <-> forall k r, results rep !! k = Some r -> ok r = true).
Proof.
  destruct (partialSuccess_eq items w) as (m & w1 & Hm & Hrun).
  rewrite Hrun. do 2 eexists. split; [reflexivity|]. cbn [results all_ok].
  split; [|split; [|split]].
  - intros k. rewrite (each_item_dom items _ _ _ _ Hm k).
    rewrite lookup_empty. split; [intros [[x Hx]|H]; [discriminate|exact H]|auto].
  - intros id Hin. destruct (last_occurrence id items Hin) as (i & Hi & Hlast).
    exists i. eexists. split; [exact Hi|]. split; [exact Hlast|].
    split; [exact (each_item_lookup_last items ∅ m (tick w) w1 i id Hi Hlast Hm)|].
    cbv zeta. rewrite process_item_eq.
    pose proof (item_of_draws_shape (own_draws (start_of items i (tick w)))) as Hs.
    pose proof (item_of_draws_reason
                  (rng (start_of items i (tick w)) (draws (start_of items i (tick w))))
                  (rng (start_of items i (tick w)) (S (draws (start_of items i (tick w)))))
                  (rng (start_of items i (tick w)) (S (S (draws (start_of items i (tick w)))))))
      as Hr.
    fold (own_draws (start_of items i (tick w))) in Hr. cbv zeta in Hr.
    destruct (item_of_draws _) as [r k]. cbn [fst snd] in *.
    destruct Hs as (Ha & Hk & _). rewrite Ha, Nat2Z.id.
    split; [reflexivity|]. split; [lia|exact Hr].
  - intros items2 v i j id Hi Hlast Hj Hlast2 Hdraws.
    destruct (partialSuccess_eq items2 v) as (m2 & v1 & Hm2 & Hrun2).
    rewrite Hrun2. cbn [fst results_of results].
    rewrite (each_item_lookup_last items ∅ m (tick w) w1 i id Hi Hlast Hm).
    rewrite (each_item_lookup_last items2 ∅ m2 (tick v) v1 j id Hj Hlast2 Hm2).
    rewrite Hdraws. reflexivity.
  - rewrite Nat.eqb_eq, filter_all. apply (values_all (fun r => ok r = true)).
Qed.

Lemma C6_batch_isolation_witness :
  let w := scripted_world [(1 # 100)%Q; (1 # 100)%Q; (1 # 100)%Q; (1 # 2)%Q] (1 # 2)%Q in
  exists rep w',
    partialSuccess ["f"; "s"]%string w = (inr rep, w') /\
    results rep !! "item:f"%string = Some (mkItem false 3 (Some "TOKEN_LIMIT"%string)) /\
    results rep !! "item:s"%string
      = results_of (fst (partialSuccess ["s"]%string (steady_world (1 # 2)%Q))) !! "item:s"%string.
Proof.
  cbv zeta.
  destruct (C6_batch_isolation ["f"; "s"]%string
              (scripted_world [(1 # 100)%Q; (1 # 100)%Q; (1 # 100)%Q; (1 # 2)%Q] (1 # 2)%Q))
    as (rep & w' & Hrun & _ & Hitem & Hiso & _).
  exists rep, w'. split; [exact Hrun|]. split.
  - destruct (Hitem "f"%string) as (i & r & Hi & Hlast & Hlook & Hres); [left|].
    change "item:f"%string with (key_of "f"). rewrite Hlook. f_equal.
    destruct i as [|[|i]]; [|discriminate Hi|discriminate Hi].
    cbv zeta in Hres. destruct Hres as (Hproc & _).
    vm_compute in Hproc. injection Hproc as <- _. reflexivity.
  - apply (Hiso ["s"]%string (steady_world (1 # 2)%Q) 1%nat 0%nat "s"%string).
    + reflexivity.
    + cbn [drop]. apply not_elem_of_nil.
    + reflexivity.
    + cbn [drop]. apply not_elem_of_nil.
    + vm_compute. reflexivity.
Defined.

End BatchFacts.

(** * Circuit breaker: whole runs *)

Module BreakerRuns.
Import Breaker BreakerFacts.

Lemma filter_length_le {A} (f : A -> bool) (l : list A) :
  (length (List.filter f l) <= length l)%nat.
Proof.
  induction l as [|a l IH]; cbn; [lia|]. destruct (f a); cbn; lia.
Qed.

Lemma filter_ok_app (l k : list CallResult) :
  length (List.filter ok (l ++ k))
  = (length (List.filter ok l) + length (List.filter ok k))%nat.
Proof. rewrite List.filter_app, length_app. reflexivity. Qed.

(** The run, once the loop has produced its results. *)
Lemma circuitBreaker_eq (p : Payload) (w : World) :
  exists ext w1,
    loop (default 5000 (cooldownMs p)) (Z.to_nat (calls p)) [] (tick w) = (inr ext, w1) /\
    length ext = Z.to_nat (calls p) /\
    circuitBreaker p w =
      (inr (mkSummary
              (Nat.eqb (length ext - length (List.filter ok ext)) 0)
              (length ext)
              (length (List.filter ok ext))
              (length ext - length (List.filter ok ext))
              (maxConsecutive <=? consecutive w1)
              (if openedUntil w1 =? 0 then None else Some (openedUntil w1))
              (clock w1 (ticks w1) - clock w (ticks w))),
       tick w1).
Proof.
  destruct (loop_extends (default 5000 (cooldownMs p)) (Z.to_nat (calls p)) [] (tick w))
    as (ext & w1 & Hloop & Hlen).
  exists ext, w1. cbn [app] in Hloop. split; [exact Hloop|]. split; [exact Hlen|].
  unfold circuitBreaker. unfold mbind, JS_bind, mret, JS_ret, gets, Date_now.
  fold (tick w). rewrite Hloop. reflexivity.
Qed.

(** What one turn leaves alone and what it may consume. *)
Lemma iteration_frame (cd : Z) (rs : list CallResult) (w : World) :
  exists r w',
    iteration cd rs w = (inr (rs ++ [r]), w') /\
    clock w' = clock w /\ rng w' = rng w /\
    (S (ticks w) <= ticks w' <= S (S (ticks w)))%nat /\
    (draws w + (if ok r then 1 else 0) <= draws w' <= draws w + 2)%nat.
Proof.
  destruct (Z_lt_le_dec (clock w (ticks w)) (openedUntil w)) as [H|H].
  - rewrite (iteration_rejected cd rs w H). do 2 eexists. split; [reflexivity|].
    cbn [tick clock rng ticks draws ok rejected]. repeat split; lia.
  - destruct (iteration_attempted cd rs w H) as (r & k & _ & Hr & Hk & Hrun).
    rewrite Hrun. do 2 eexists. split; [reflexivity|]. cbv zeta.
    destruct (maxConsecutive <=? _); cbn [clock rng ticks draws];
      (split; [reflexivity|]); (split; [reflexivity|]); (split; [lia|]);
      destruct (ok r); lia.
Qed.

Lemma loop_frame (cd : Z) (n : nat) :
  forall (rs : list CallResult) (w : World),
  exists ext w',
    loop cd n rs w = (inr (rs ++ ext), w') /\ length ext = n /\
    clock w' = clock w /\ rng w' = rng w /\
    (ticks w + n <= ticks w' <= ticks w + 2 * n)%nat /\
    (draws w + length (List.filter ok ext) <= draws w' <= draws w + 2 * n)%nat.
Proof.
  induction n as [|n IH]; intros rs w.
  - exists [], w. rewrite app_nil_r. cbn. repeat split; lia.
  - destruct (iteration_frame cd rs w) as (r & w1 & Hturn & Hck & Hrg & Ht & Hd).
    destruct (IH (rs ++ [r]) w1) as (ext & w' & Hloop & Hlen & Hck' & Hrg' & Ht' & Hd').
    exists (r :: ext), w'. cbn [loop]. unfold mbind, JS_bind. rewrite Hturn, Hloop.
    rewrite <- app_assoc. split; [reflexivity|]. split; [cbn; lia|].
    split; [congruence|]. split; [congruence|]. split; [lia|].
    cbn [List.filter]. destruct (ok r); cbn [length]; lia.
Qed.

(** The summary counts every requested call once, as a success or as a
    failure; the overall flag is true exactly when all were successes; the
    trip flag and [openUntil] report the breaker variables as the run leaves
    them, a zero [openedUntil] being shown as null. *)
Theorem run_accounting (p : Payload) (w : World) :
  exists s w',
    circuitBreaker p w = (inr s, w') /\
    attempts s = Z.to_nat (calls p) /\
    (okCount s + failCount s = attempts s)%nat /\
    (all_ok s = true <-> okCount s = attempts s) /\
    consecutivelyTripped s = (maxConsecutive <=? consecutive w') /\
    openUntil s = (if openedUntil w' =? 0 then None else Some (openedUntil w')).
Proof.
  destruct (circuitBreaker_eq p w) as (ext & w1 & _ & Hlen & Hrun).
  rewrite Hrun. do 2 eexists. split; [reflexivity|].
  cbn [attempts okCount failCount all_ok consecutivelyTripped openUntil tick
       consecutive openedUntil].
  pose proof (filter_length_le ok ext) as Hle.
  split; [exact Hlen|]. split; [lia|]. split; [|split; reflexivity].
  rewrite Nat.eqb_eq. lia.
Qed.

(** A run asked for no call, or for a negative number of calls, makes
    none: it reports [ok: true] with every count 0, reads the clock twice,
    and leaves the breaker variables and the generator as they were, still
    reporting a stored trip. *)
Theorem run_without_calls (p : Payload) (w : World) :
  calls p <= 0 ->
  circuitBreaker p w =
    (inr (mkSummary true 0 0 0
            (maxConsecutive <=? consecutive w)
            (if openedUntil w =? 0 then None else Some (openedUntil w))
            (clock w (S (ticks w)) - clock w (ticks w))),
     tick (tick w)).
Proof.
  intros H. unfold circuitBreaker.
  replace (Z.to_nat (calls p)) with 0%nat by lia. reflexivity.
Qed.

Lemma run_without_calls_witness :
  exists s w',
    circuitBreaker (mkPayload (-3) None)
      (mkWorld (fun n => 1000 * Z.of_nat n) 7 (fun _ => (1 # 10)%Q) 10 5 11000)
      = (inr s, w') /\
    all_ok s = true /\ attempts s = 0%nat /\
    consecutivelyTripped s = true /\ openUntil s = Some 11000.
Proof.
  do 2 eexists. split.
  - apply (run_without_calls (mkPayload (-3) None)). cbn. lia.
  - repeat split.
Defined.

(** No run invokes the upstream more than twice per requested call, nor
    less than once per successful call; it reads the clock at least once and
    at most twice per call, besides the two readings that time the run. *)
Theorem run_cost_bounds (p : Payload) (w : World) :
  exists s w',
    circuitBreaker p w = (inr s, w') /\
    (draws w + okCount s <= draws w' <= draws w + 2 * attempts s)%nat /\
    (ticks w + attempts s + 2 <= ticks w' <= ticks w + 2 * attempts s + 2)%nat /\
    clock w' = clock w /\ rng w' = rng w.
Proof.
  destruct (circuitBreaker_eq p w) as (ext & w1 & Hloop & Hlen & Hrun).
  destruct (loop_frame (default 5000 (cooldownMs p)) (Z.to_nat (calls p)) [] (tick w))
    as (ext' & w1' & Hloop' & Hlen' & Hck & Hrg & Ht & Hd).
  rewrite Hloop in Hloop'. cbn [app] in Hloop'. injection Hloop' as <- <-.
  rewrite Hrun. do 2 eexists. split; [reflexivity|].
  cbn [okCount attempts tick ticks draws clock rng] in *.
  repeat split; try congruence; lia.
Qed.

Lemma world_eta (w : World) :
  mkWorld (clock w) (ticks w) (rng w) (draws w) (consecutive w) (openedUntil w) = w.
Proof. destruct w. reflexivity. Qed.

Lemma filter_ok_repeat_rejected (n : nat) :
  List.filter ok (repeat rejected n) = [].
Proof. induction n as [|n IH]; [reflexivity|exact IH]. Qed.

Lemma filter_ok_repeat_success (n : nat) :
  List.filter ok (repeat success n) = repeat success n.
Proof. induction n as [|n IH]; [reflexivity|]. cbn. rewrite IH. reflexivity. Qed.

(** While the readings of the clock its turns take stay below
    [openedUntil], every turn is rejected and nothing but the clock cursor
    moves. *)
Lemma loop_open (cd : Z) (n : nat) :
  forall (rs : list CallResult) (w : World),
  (forall k, (ticks w <= k < ticks w + n)%nat -> clock w k < openedUntil w) ->
  loop cd n rs w =
    (inr (rs ++ repeat rejected n),
     mkWorld (clock w) (n + ticks w) (rng w) (draws w) (consecutive w) (openedUntil w)).
Proof.
  induction n as [|n IH]; intros rs w Hopen.
  - cbn [loop repeat Nat.add]. rewrite app_nil_r, world_eta. reflexivity.
  - cbn [loop]. unfold mbind, JS_bind.
    rewrite (iteration_rejected cd rs w) by (apply Hopen; lia).
    rewrite IH.
    + cbn [tick clock ticks rng draws consecutive openedUntil repeat].
      rewrite <- app_assoc, Nat.add_succ_r. reflexivity.
    + intros k Hk. cbn [tick clock ticks openedUntil] in *. apply Hopen. lia.
Qed.

(** A run made while the breaker stays open (the reading each of its turns
    takes is below [openedUntil]) rejects every requested call: no success,
    as many failures as calls, no invocation of the upstream, and the
    breaker variables are left as they were. *)
Theorem run_while_open (p : Payload) (w : World) :
  (forall k, (ticks w < k <= ticks w + Z.to_nat (calls p))%nat ->
     clock w k < openedUntil w) ->
  exists s w',
    circuitBreaker p w = (inr s, w') /\
    okCount s = 0%nat /\ failCount s = Z.to_nat (calls p) /\
    (0 < calls p -> all_ok s = false) /\
    draws w' = draws w /\
    consecutive w' = consecutive w /\ openedUntil w' = openedUntil w.
Proof.
  intros Hopen.
  destruct (circuitBreaker_eq p w) as (ext & w1 & Hloop & Hlen & Hrun).
  rewrite loop_open in Hloop by (intros k Hk; apply Hopen; cbn [tick ticks] in Hk; lia).
  cbn [app] in Hloop. injection Hloop as <- <-.
  rewrite Hrun. do 2 eexists. split; [reflexivity|].
  cbn [okCount failCount all_ok tick draws consecutive openedUntil].
  rewrite filter_ok_repeat_rejected, repeat_length. cbn [length].
  rewrite Nat.sub_0_r. repeat split.
  intros Hpos. apply Nat.eqb_neq. lia.
Qed.

Lemma run_while_open_witness :
  exists s w',
    circuitBreaker (mkPayload 3 None)
      (mkWorld (fun n => 1000 * Z.of_nat n) 7 (fun _ => (1 # 10)%Q) 10 5 11000)
      = (inr s, w') /\
    okCount s = 0%nat /\ failCount s = 3%nat /\ draws w' = 10%nat.
Proof.
  destruct (run_while_open (mkPayload 3 None)
              (mkWorld (fun n => 1000 * Z.of_nat n) 7 (fun _ => (1 # 10)%Q) 10 5 11000))
    as (s & w' & Hrun & Hok & Hfail & _ & Hd & _).
  - intros k Hk. cbn [clock ticks openedUntil calls Z.to_nat Pos.to_nat
                      Pos.iter_op Nat.add] in *. lia.
  - exists s, w'. auto.
Defined.

(** A turn taken while the breaker lets calls through and the upstream
    answers at once. *)
Lemma iteration_success (cd : Z) (rs : list CallResult) (w : World) :
  openedUntil w <= clock w (ticks w) ->
  Qltb (rng w (draws w)) lit_0_3 = false ->
  iteration cd rs w =
    (inr (rs ++ [success]),
     mkWorld (clock w) (S (ticks w)) (rng w) (S (draws w)) 0 (openedUntil w)).
Proof.
  intros Hc Hd. unfold iteration. js_simpl.
  apply Z.ltb_ge in Hc. rewrite Hc. fold (tick w).
  rewrite attempt_call_eq. cbn [tick rng draws]. rewrite Hd. reflexivity.
Qed.

Lemma loop_healthy (cd : Z) (n : nat) :
  forall (rs : list CallResult) (w : World),
  (forall k, (ticks w <= k < ticks w + n)%nat -> openedUntil w <= clock w k) ->
  (forall k, (draws w <= k < draws w + n)%nat -> Qltb (rng w k) lit_0_3 = false) ->
  loop cd n rs w =
    (inr (rs ++ repeat success n),
     mkWorld (clock w) (n + ticks w) (rng w) (n + draws w)
       (match n with O => consecutive w | S _ => 0 end) (openedUntil w)).
Proof.
  induction n as [|n IH]; intros rs w Hc Hd.
  - cbn [loop repeat Nat.add]. rewrite app_nil_r, world_eta. reflexivity.
  - cbn [loop]. unfold mbind, JS_bind.
    rewrite (iteration_success cd rs w) by (first [apply Hc | apply Hd]; lia).
    rewrite IH.
    + cbn [clock ticks rng draws consecutive openedUntil repeat].
      rewrite <- app_assoc, !Nat.add_succ_r. destruct n; reflexivity.
    + intros k Hk. cbn [clock ticks openedUntil] in *. apply Hc. lia.
    + intros k Hk. cbn [rng draws] in *. apply Hd. lia.
Qed.

(** A run against a healthy upstream (every answer of the generator it
    uses is at least 0.3) with the breaker letting calls through: every
    requested call succeeds at its first attempt, the run reports
    [ok: true], the failure counter ends at 0 and [openedUntil] is not
    touched. *)
Theorem run_healthy (p : Payload) (w : World) :
  0 < calls p ->
  (forall k, (ticks w < k <= ticks w + Z.to_nat (calls p))%nat ->
     openedUntil w <= clock w k) ->
  (forall k, (draws w <= k < draws w + Z.to_nat (calls p))%nat ->
     Qltb (rng w k) lit_0_3 = false) ->
  exists s w',
    circuitBreaker p w = (inr s, w') /\
    all_ok s = true /\ okCount s = Z.to_nat (calls p) /\ failCount s = 0%nat /\
    consecutivelyTripped s = false /\
    draws w' = (draws w + Z.to_nat (calls p))%nat /\
    consecutive w' = 0 /\ openedUntil w' = openedUntil w.
Proof.
  intros Hpos Hc Hd.
  destruct (circuitBreaker_eq p w) as (ext & w1 & Hloop & Hlen & Hrun).
  rewrite loop_healthy in Hloop.
  - cbn [app] in Hloop. injection Hloop as <- <-.
    rewrite Hrun. do 2 eexists. split; [reflexivity|].
    cbn [okCount failCount all_ok consecutivelyTripped tick draws consecutive openedUntil].
    rewrite filter_ok_repeat_success, repeat_length, Nat.sub_diag.
    destruct (Z.to_nat (calls p)) eqn:Hn; [lia|].
    repeat split. lia.
  - intros k Hk. cbn [tick clock ticks openedUntil] in *. apply Hc. lia.
  - intros k Hk. cbn [tick rng draws] in *. apply Hd. lia.
Qed.

Lemma run_healthy_witness :
  exists s w',
    circuitBreaker (mkPayload 4 (Some 3000)) (steady_world (1 # 2)%Q) = (inr s, w') /\
    all_ok s = true /\ okCount s = 4%nat /\ draws w' = 4%nat.
Proof.
  destruct (run_healthy (mkPayload 4 (Some 3000)) (steady_world (1 # 2)%Q))
    as (s & w' & Hrun & Hok & Hc & _ & _ & Hd & _).
  - cbn. lia.
  - intros k Hk. cbn [steady_world clock openedUntil]. lia.
  - intros k Hk. reflexivity.
  - exists s, w'. auto.
Defined.

Lemma iteration_deadline (cd : Z) (rs : list CallResult) (w : World) :
  0 <= cd ->
  clock w (ticks w) <= clock w (S (ticks w)) ->
  openedUntil w <= openedUntil (snd (iteration cd rs w)).
Proof.
  intros Hcd Hmono.
  destruct (Z_lt_le_dec (clock w (ticks w)) (openedUntil w)) as [H|H].
  - rewrite (iteration_rejected cd rs w H). cbn. lia.
  - destruct (iteration_attempted cd rs w H) as (r & k & _ & _ & _ & Hrun).
    rewrite Hrun. cbn [snd]. cbv zeta.
    destruct (maxConsecutive <=? _); cbn [openedUntil]; lia.
Qed.

Lemma loop_deadline (cd : Z) (n : nat) :
  forall (rs : list CallResult) (w : World),
  0 <= cd ->
  (forall i : nat, clock w i <= clock w (S i)) ->
  openedUntil w <= openedUntil (snd (loop cd n rs w)).
Proof.
  induction n as [|n IH]; intros rs w Hcd Hmono.
  - cbn. lia.
  - destruct (iteration_frame cd rs w) as (r & w1 & Hturn & Hck & _).
    pose proof (iteration_deadline cd rs w Hcd (Hmono _)) as H1.
    cbn [loop]. unfold mbind, JS_bind. rewrite Hturn in *. cbn [snd] in H1.
    specialize (IH (rs ++ [r]) w1 Hcd). rewrite Hck in IH.
    specialize (IH Hmono). lia.
Qed.

(** With a clock that never goes back and a cooldown that is not negative,
    a run never moves [openedUntil] to an earlier instant. *)
Theorem run_deadline_monotone (p : Payload) (w : World) :
  0 <= default 5000 (cooldownMs p) ->
  (forall i : nat, clock w i <= clock w (S i)) ->
  openedUntil w <= openedUntil (snd (circuitBreaker p w)).
Proof.
  intros Hcd Hmono.
  destruct (circuitBreaker_eq p w) as (ext & w1 & Hloop & _ & Hrun).
  pose proof (loop_deadline (default 5000 (cooldownMs p)) (Z.to_nat (calls p)) []
                (tick w) Hcd Hmono) as H.
  rewrite Hloop in H. rewrite Hrun. exact H.
Qed.

Lemma run_deadline_monotone_witness :
  0 <= openedUntil (snd (circuitBreaker (mkPayload 20 (Some 3000)) (steady_world (1 # 10)%Q))).
Proof.
  apply (run_deadline_monotone (mkPayload 20 (Some 3000)) (steady_world (1 # 10)%Q)).
  - cbn. lia.
  - intros i. cbn [steady_world clock]. lia.
Defined.

Lemma iteration_below_threshold (cd : Z) (rs : list CallResult) (w : World) :
  0 <= consecutive w -> consecutive w + 1 < maxConsecutive ->
  openedUntil (snd (iteration cd rs w)) = openedUntil w /\
  0 <= consecutive (snd (iteration cd rs w)) <= consecutive w + 1.
Proof.
  intros H0 Hlt.
  destruct (Z_lt_le_dec (clock w (ticks w)) (openedUntil w)) as [H|H].
  - rewrite (iteration_rejected cd rs w H). cbn. lia.
  - destruct (iteration_attempted cd rs w H) as (r & k & _ & _ & _ & Hrun).
    rewrite Hrun. cbn [snd]. cbv zeta. unfold maxConsecutive in *.
    destruct (ok r).
    + cbn [Z.leb Z.compare consecutive openedUntil]. lia.
    + destruct (5 <=? consecutive w + 1) eqn:Hc; [apply Z.leb_le in Hc; lia|].
      cbn [consecutive openedUntil]. lia.
Qed.

Lemma loop_below_threshold (cd : Z) (n : nat) :
  forall (rs : list CallResult) (w : World),
  0 <= consecutive w -> consecutive w + Z.of_nat n < maxConsecutive ->
  openedUntil (snd (loop cd n rs w)) = openedUntil w /\
  0 <= consecutive (snd (loop cd n rs w)) <= consecutive w + Z.of_nat n.
Proof.
  induction n as [|n IH]; intros rs w H0 Hlt.
  - cbn. lia.
  - destruct (iteration_total cd rs w) as (r & w1 & Hturn).
    destruct (iteration_below_threshold cd rs w H0) as (Ho & Hc); [lia|].
    cbn [loop]. unfold mbind, JS_bind. rewrite Hturn in *. cbn [snd] in Ho, Hc.
    destruct (IH (rs ++ [r]) w1) as (Ho' & Hc'); lia.
Qed.

(** The breaker never opens early: when the failure counter the run starts
    with plus the number of requested calls stays below [maxConsecutive],
    the run leaves [openedUntil] as it was and does not report a trip,
    whatever the upstream answers. *)
Theorem run_never_opens_early (p : Payload) (w : World) :
  0 <= consecutive w -> 0 <= calls p ->
  consecutive w + calls p < maxConsecutive ->
  exists s w',
    circuitBreaker p w = (inr s, w') /\
    consecutivelyTripped s = false /\
    openedUntil w' = openedUntil w /\
    openUntil s = (if openedUntil w =? 0 then None else Some (openedUntil w)).
Proof.
  intros H0 Hn Hlt.
  destruct (circuitBreaker_eq p w) as (ext & w1 & Hloop & _ & Hrun).
  destruct (loop_below_threshold (default 5000 (cooldownMs p)) (Z.to_nat (calls p)) []
              (tick w)) as (Ho & Hc).
  - exact H0.
  - cbn [tick consecutive]. lia.
  - rewrite Hloop in Ho, Hc. cbn [snd tick consecutive openedUntil] in Ho, Hc.
    rewrite Hrun. do 2 eexists. split; [reflexivity|].
    cbn [consecutivelyTripped openUntil tick openedUntil]. rewrite Ho.
    split; [|split; reflexivity].
    apply Z.leb_gt. lia.
Qed.

Lemma run_never_opens_early_witness :
  exists s w',
    circuitBreaker (mkPayload 4 None) (steady_world (1 # 10)%Q) = (inr s, w') /\
    consecutivelyTripped s = false /\ openUntil s = None.
Proof.
  destruct (run_never_opens_early (mkPayload 4 None) (steady_world (1 # 10)%Q))
    as (s & w' & Hrun & Ht & _ & Ho).
  - cbn. lia.
  - cbn. lia.
  - unfold maxConsecutive. cbn. lia.
  - exists s, w'. auto.
Defined.

Lemma run_accounting_witness :
  exists s w',
    circuitBreaker (mkPayload 7 None) (steady_world (1 # 10)%Q) = (inr s, w') /\
    attempts s = 7%nat /\ all_ok s = false.
Proof.
  destruct (run_accounting (mkPayload 7 None) (steady_world (1 # 10)%Q))
    as (s & w' & Hrun & Hn & _ & Hall & _).
  exists s, w'. split; [exact Hrun|]. split; [exact Hn|].
  destruct (all_ok s) eqn:Hok; [|reflexivity].
  exfalso. apply proj1 in Hall. specialize (Hall eq_refl).
  vm_compute in Hrun. injection Hrun as <- _. discriminate Hall.
Defined.

(** One call through the retry wrapper: it never throws; it is recorded as
    a failure, with the 502 of the upstream and not the 500 default, exactly
    when the first attempt and the single retry both get an answer below
    0.3; a first answer of at least 0.3 ends the call after one attempt, any
    other call makes two. *)
Theorem call_outcome (w : World) :
  exists r k,
    attempt_call w = (inr r, drawn k w) /\
    (r = success \/ r = upstream_failure) /\
    (r = upstream_failure <->
       Qltb (rng w (draws w)) lit_0_3 = true /\
       Qltb (rng w (S (draws w))) lit_0_3 = true) /\
    (k = 1%nat <-> Qltb (rng w (draws w)) lit_0_3 = false) /\
    (k = 1%nat \/ k = 2%nat).
Proof.
  rewrite attempt_call_eq.
  destruct (Qltb (rng w (draws w)) lit_0_3);
    [destruct (Qltb (rng w (S (draws w))) lit_0_3)|];
    do 2 eexists; (split; [reflexivity|]);
    (split; [auto|]);
    (split; [split; [try discriminate; auto | intros [? ?]; congruence]|]);
    (split; [split; intros; try discriminate; congruence|]); auto.
Qed.

Lemma call_outcome_witness :
  exists r k,
    attempt_call (scripted_world [(1 # 10)%Q] (1 # 2)%Q)
      = (inr r, drawn k (scripted_world [(1 # 10)%Q] (1 # 2)%Q)) /\
    r <> upstream_failure /\ k <> 1%nat.
Proof.
  destruct (call_outcome (scripted_world [(1 # 10)%Q] (1 # 2)%Q))
    as (r & k & Hrun & _ & Hfail & Hone & _).
  exists r, k. split; [exact Hrun|]. split.
  - intros Hr. apply Hfail in Hr. destruct Hr as [_ Hr]. discriminate Hr.
  - intros Hk. apply Hone in Hk. discriminate Hk.
Defined.

End BreakerRuns.

(** * Partial success: attempts, counts and repeated items *)

Module BatchRuns.
Import Batch BatchFacts.

(** How one item ends, in terms of the answers its attempts receive: it
    fails exactly when all three attempts get an answer below 0.10, then
    with three attempts and the code of the third error as reason; it
    succeeds at the first attempt exactly when the first answer is at least
    0.10; and it consumes as many answers as it reports attempts. *)
Theorem item_outcome (w : World) :
  exists r k,
    process_item w = (inr r, drawn k w) /\
    attempts r = Z.of_nat k /\
    (ok r = false <->
       Qltb (rng w (draws w)) lit_0_10 = true /\
       Qltb (rng w (S (draws w))) lit_0_10 = true /\
       Qltb (rng w (S (S (draws w)))) lit_0_10 = true) /\
    (attempts r = 1 <-> Qltb (rng w (draws w)) lit_0_10 = false) /\
    (ok r = false ->
       attempts r = 3 /\
       reason r = Some (if Qltb (rng w (S (S (draws w)))) lit_0_05
                        then "TOKEN_LIMIT" else "RATE_LIMIT")%string).
Proof.
  rewrite process_item_eq. do 2 eexists. split; [reflexivity|].
  unfold item_of_draws, own_draws, thrown. rewrite !throws_eq.
  destruct (Qltb (rng w (draws w)) lit_0_10);
    [destruct (Qltb (rng w (S (draws w))) lit_0_10);
       [destruct (Qltb (rng w (S (S (draws w)))) lit_0_10)|]|];
    cbn [fst snd attempts ok reason];
    (split; [reflexivity|]);
    (split; [split; [try discriminate; auto | intros (? & ? & ?); congruence]|]);
    (split; [split; intros; try discriminate; congruence|]);
    try discriminate.
  intros _. split; [reflexivity|].
  destruct (Qltb _ lit_0_05); reflexivity.
Qed.

Lemma item_outcome_witness :
  exists r k,
    process_item (steady_world (7 # 100)%Q) = (inr r, drawn k (steady_world (7 # 100)%Q)) /\
    ok r = false /\ attempts r = 3 /\ reason r = Some "RATE_LIMIT"%string.
Proof.
  destruct (item_outcome (steady_world (7 # 100)%Q))
    as (r & k & Hrun & _ & Hfail & _ & Hreason).
  assert (Hok : ok r = false).
  { apply Hfail. repeat split. }
  exists r, k. split; [exact Hrun|]. split; [exact Hok|].
  destruct (Hreason Hok) as [Ha Hr]. split; [exact Ha|exact Hr].
Defined.

Lemma drawn_drawn (a b : nat) (w : World) : drawn a (drawn b w) = drawn (a + b) w.
Proof. unfold drawn. cbn [clock ticks rng draws consecutive openedUntil]. f_equal. lia. Qed.

(** The loop over a batch only moves the cursor of the generator, by one
    to three answers per listed item. *)
Lemma each_item_world (items : list string) :
  forall (acc : gmap string ItemResult) (w : World),
  exists K,
    snd (each_item items acc w) = drawn K w /\
    (length items <= K <= 3 * length items)%nat.
Proof.
  induction items as [|id rest IH]; intros acc w.
  - exists 0%nat. cbn. unfold drawn. cbn. destruct w. split; [reflexivity|lia].
  - rewrite each_item_cons.
    pose proof (item_of_draws_shape (own_draws w)) as Hs.
    destruct (item_of_draws (own_draws w)) as [r k]. destruct Hs as (_ & Hk & _).
    destruct (IH (<[key_of id := r]> acc) (drawn k w)) as (K & HK & Hb).
    exists (K + k)%nat. cbn [fst snd]. rewrite HK, drawn_drawn.
    split; [reflexivity|]. cbn [length]. lia.
Qed.

(** A run of the batch invokes the operation at least once and at most
    three times per listed item, reads the clock exactly twice, and touches
    neither the breaker variables nor anything else of the world. *)
Theorem batch_cost_bounds (items : list string) (w : World) :
  exists rep K,
    partialSuccess items w = (inr rep, tick (drawn K (tick w))) /\
    (length items <= K <= 3 * length items)%nat.
Proof.
  destruct (partialSuccess_eq items w) as (m & w1 & Hm & Hrun).
  destruct (each_item_world items ∅ (tick w)) as (K & HK & Hb).
  rewrite Hm in HK. cbn [snd] in HK. subst w1.
  rewrite Hrun. do 2 eexists. split; [reflexivity|exact Hb].
Qed.

Lemma each_item_size (items : list string) :
  forall (acc m : gmap string ItemResult) (w w' : World),
  each_item items acc w = (inr m, w') ->
  (size acc <= size m <= size acc + length items)%nat.
Proof.
  induction items as [|id rest IH]; intros acc m w w' Hrun.
  - cbn in Hrun. injection Hrun as <- _. cbn. lia.
  - rewrite each_item_cons in Hrun. apply IH in Hrun.
    rewrite map_size_insert in Hrun. cbn [length].
    destruct (acc !! key_of id); cbv beta iota delta [Datatypes.id] in Hrun; lia.
Qed.

Lemma each_item_size_fresh (items : list string) :
  forall (acc m : gmap string ItemResult) (w w' : World),
  NoDup items ->
  (forall id, id ∈ items -> acc !! key_of id = None) ->
  each_item items acc w = (inr m, w') ->
  size m = (size acc + length items)%nat.
Proof.
  induction items as [|id rest IH]; intros acc m w w' Hnd Hfresh Hrun.
  - cbn in Hrun. injection Hrun as <- _. cbn. lia.
  - rewrite each_item_cons in Hrun. apply NoDup_cons in Hnd as [Hnotin Hnd].
    apply IH in Hrun; [|exact Hnd|].
    + rewrite map_size_insert_None in Hrun by (apply Hfresh; left).
      cbn [length]. lia.
    + intros x Hx. rewrite lookup_insert_ne.
      * apply Hfresh. right. exact Hx.
      * intros Heq. apply key_of_inj in Heq. subst x. contradiction.
Qed.

(** The counts of a batch run are over the keys of the returned record:
    [okCount + failedCount] is the number of keys, which is at most the
    number of listed items and equal to it when no item is listed twice; the
    overall flag is true exactly when every key counts as a success. *)
Theorem batch_counts (items : list string) (w : World) :
  exists rep w',
    partialSuccess items w = (inr rep, w') /\
    (okCount rep + failedCount rep = size (results rep))%nat /\
    (size (results rep) <= length items)%nat /\
    (NoDup items -> size (results rep) = length items) /\
    (all_ok rep = true <-> okCount rep = size (results rep)).
Proof.
  destruct (partialSuccess_eq items w) as (m & w1 & Hm & Hrun).
  rewrite Hrun. do 2 eexists. split; [reflexivity|].
  cbn [okCount failedCount results all_ok].
  assert (Hlen : length (values m) = size m).
  { unfold values. rewrite length_fmap. apply length_map_to_list. }
  pose proof (BreakerRuns.filter_length_le ok (values m)) as Hle.
  pose proof (each_item_size items _ _ _ _ Hm) as Hsize.
  rewrite map_size_empty in Hsize.
  split; [lia|]. split; [lia|]. split.
  - intros Hnd. rewrite (each_item_size_fresh items _ _ _ _ Hnd) with (2 := Hm).
    + rewrite map_size_empty. reflexivity.
    + intros id _. apply lookup_empty.
  - rewrite Nat.eqb_eq. lia.
Qed.

Lemma batch_counts_witness :
  exists rep w',
    partialSuccess ["a"; "b"; "c"]%string (steady_world (1 # 2)%Q) = (inr rep, w') /\
    size (results rep) = 3%nat.
Proof.
  destruct (batch_counts ["a"; "b"; "c"]%string (steady_world (1 # 2)%Q))
    as (rep & w' & Hrun & _ & _ & Hnd & _).
  exists rep, w'. split; [exact Hrun|]. apply Hnd.
  apply (bool_decide_unpack _). vm_compute. exact I.
Defined.

(** When an item is listed more than once, every occurrence is processed
    but the record keeps one result for it: the one of its last occurrence,
    as [process_item] computes it in the world where that occurrence
    starts. *)
Theorem last_occurrence_wins (items : list string) (w : World) (i : nat) (id : string) :
  items !! i = Some id -> id ∉ drop (S i) items ->
  exists rep w' r,
    partialSuccess items w = (inr rep, w') /\
    fst (process_item (start_of items i (tick w))) = inr r /\
    results rep !! key_of id = Some r.
Proof.
  intros Hi Hlast.
  destruct (partialSuccess_eq items w) as (m & w1 & Hm & Hrun).
  rewrite Hrun. do 3 eexists. split; [reflexivity|].
  rewrite process_item_eq. cbn [fst results]. split; [reflexivity|].
  apply (each_item_lookup_last items ∅ m (tick w) w1 i id Hi Hlast Hm).
Qed.

Lemma last_occurrence_wins_witness :
  let w := scripted_world [(1 # 2)%Q; (7 # 100)%Q; (7 # 100)%Q; (7 # 100)%Q] (1 # 2)%Q in
  exists rep w',
    partialSuccess ["a"; "a"]%string w = (inr rep, w') /\
    results rep !! "item:a"%string = Some (mkItem false 3 (Some "RATE_LIMIT"%string)) /\
    size (results rep) = 1%nat.
Proof.
  cbv zeta.
  destruct (last_occurrence_wins ["a"; "a"]%string
              (scripted_world [(1 # 2)%Q; (7 # 100)%Q; (7 # 100)%Q; (7 # 100)%Q] (1 # 2)%Q)
              1%nat "a"%string)
    as (rep & w' & r & Hrun & Hr & Hlook).
  - reflexivity.
  - cbn [drop]. apply not_elem_of_nil.
  - exists rep, w'. split; [exact Hrun|].
    vm_compute in Hrun. injection Hrun as <- _. split; vm_compute; reflexivity.
Defined.

End BatchRuns.

(** * Graceful degradation: which tier answers, and with what *)

Module DegradationRuns.
Import Degradation.

(** Neither variant throws. *)
Lemma degradation_returns (env : option string) (prompt : JsString) (w : World) :
  (exists a, gracefulDegradation env prompt w = (inr a, tick (tick w))) /\
  (exists a, testGracefulDegradation env prompt w = (inr a, tick (tick w))).
Proof.
  unfold gracefulDegradation, testGracefulDegradation. split.
  - destruct (bool_decide (env = Some "1"%string)); eexists; reflexivity.
  - destruct (bool_decide (env = Some "0"%string)); eexists; reflexivity.
Qed.

(** The primary tier never answers. For every prompt the task answers with
    [degraded: true], from the secondary tier when [LLM_MOCK] is "1" and
    from the template otherwise; the standalone copy answers from the
    template when [LLM_MOCK] is "0" and from the secondary tier otherwise.
    Both read the clock twice and report the difference as duration. *)
Theorem tier_selection (env : option string) (prompt : JsString) (w : World) :
  (exists a,
     gracefulDegradation env prompt w = (inr a, tick (tick w)) /\
     degraded a = Some true /\
     model a = (if bool_decide (env = Some "1"%string) then "secondary" else "template")%string /\
     durationMs a = clock w (S (ticks w)) - clock w (ticks w)) /\
  (exists a,
     testGracefulDegradation env prompt w = (inr a, tick (tick w)) /\
     degraded a = Some true /\
     model a = (if bool_decide (env = Some "0"%string) then "template" else "secondary")%string /\
     durationMs a = clock w (S (ticks w)) - clock w (ticks w)).
Proof.
  unfold gracefulDegradation, testGracefulDegradation. split.
  - destruct (bool_decide (env = Some "1"%string));
      eexists; (split; [reflexivity|]); repeat split.
  - destruct (bool_decide (env = Some "0"%string));
      eexists; (split; [reflexivity|]); repeat split.
Qed.

Lemma js_length (s : string) : length (js s) = String.length s.
Proof.
  unfold js. rewrite length_map.
  induction s as [|c s IH]; cbn; [reflexivity|]. rewrite IH. reflexivity.
Qed.

(** The output quotes a bounded prefix of the prompt and nothing else of
    it: its length is 10 plus at most 12 code units of the prompt from the
    secondary tier, and 35 plus at most 20 from the template; a prompt of at
    most 12 code units, the empty one included, is quoted whole by either
    tier. *)
Theorem output_length (env : option string) (prompt : JsString) (w : World) :
  exists a w',
    gracefulDegradation env prompt w = (inr a, w') /\
    length (output a) =
      (if bool_decide (env = Some "1"%string)
       then 10 + Nat.min 12 (length prompt)
       else 35 + Nat.min 20 (length prompt))%nat /\
    (length (output a) <= 55)%nat /\
    ((length prompt <= 12)%nat ->
       output a =
         if bool_decide (env = Some "1"%string)
         then js "fallback(" ++ prompt ++ js ")"
         else js "We're experiencing issues. Draft: " ++ prompt ++ ellipsis).
Proof.
  unfold gracefulDegradation.
  destruct (bool_decide (env = Some "1"%string));
    do 2 eexists; (split; [reflexivity|]); cbn [output]; unfold slice0;
    rewrite !length_app, !js_length, length_take; cbn [String.length ellipsis length];
    (split; [lia|]); (split; [lia|]);
    intros Hshort; rewrite firstn_all2 by lia; reflexivity.
Qed.

Lemma output_length_witness :
  exists a w',
    gracefulDegradation (Some "1"%string) [] (steady_world 0) = (inr a, w') /\
    output a = js "fallback()".
Proof.
  destruct (output_length (Some "1"%string) [] (steady_world 0))
    as (a & w' & Hrun & _ & _ & Hwhole).
  exists a, w'. split; [exact Hrun|]. apply Hwhole. cbn. lia.
Defined.

End DegradationRuns.

(** * The standalone runner: what makes it pass or fail *)

Module StandaloneFacts.
Import Standalone.

Lemma runCircuitBreaker_passes (w : World) :
  exists s w', runCircuitBreaker w = (inr (Passed s), w').
Proof.
  unfold runCircuitBreaker, try_catch, mbind, JS_bind.
  destruct (BreakerFacts.circuitBreaker_total (Breaker.mkPayload 20 (Some 3000)) w)
    as (s & w' & Hrun & _).
  rewrite Hrun. eauto.
Qed.

Lemma runPartialSuccess_passes (w : World) :
  exists rep w', runPartialSuccess w = (inr (Passed rep), w').
Proof.
  unfold runPartialSuccess, try_catch, mbind, JS_bind.
  destruct (BatchFacts.partialSuccess_eq
              ["a"; "b"; "c"; "d"; "e"; "f"; "g"; "h"]%string w)
    as (m & w1 & _ & Hrun).
  rewrite Hrun. eauto.
Qed.

Lemma runGracefulDegradation_passes (env : option string) (w : World) :
  exists a w', runGracefulDegradation env w = (inr (Passed a), w').
Proof.
  unfold runGracefulDegradation, try_catch, mbind, JS_bind.
  destruct (DegradationRuns.degradation_returns env
              (js "Explain the benefits of error handling in AI systems") w)
    as (_ & a & Hrun).
  rewrite Hrun. eauto.
Qed.

Lemma runHumanEscalation_passes (w : World) :
  exists r, runHumanEscalation w = (inr (Passed r), tick (tick (tick (tick w)))).
Proof. eexists. reflexivity. Qed.

Lemma runAll_passes (env : option string) (w : World) :
  exists e w',
    runAll env w = (inr e, w') /\
    successCount e = 4%nat /\ totalTests e = 4%nat /\ exitCode e = 0.
Proof.
  unfold runAll, mbind, JS_bind, Date_now. fold (tick w).
  destruct (runCircuitBreaker_passes (tick w)) as (s & w1 & H1). rewrite H1.
  destruct (runPartialSuccess_passes w1) as (rep & w2 & H2). rewrite H2.
  destruct (runHumanEscalation_passes w2) as (r & H3). rewrite H3.
  destruct (runGracefulDegradation_passes env (tick (tick (tick (tick w2)))))
    as (a & w4 & H4).
  rewrite H4. do 2 eexists. split; [reflexivity|]. repeat split.
Qed.

Lemma known_pattern_cases (pattern : string) :
  pattern ∈ known_patterns <->
  pattern = "all"%string \/
  pattern = "circuit-breaker"%string \/ pattern = "circuitBreaker"%string \/
  pattern = "partial-success"%string \/ pattern = "partialSuccess"%string \/
  pattern = "human-escalation"%string \/ pattern = "humanEscalation"%string \/
  pattern = "graceful-degradation"%string \/ pattern = "gracefulDegradation"%string.
Proof.
  unfold known_patterns. rewrite !elem_of_cons, elem_of_nil. tauto.
Qed.

(** One conjunct of the case analysis of the entry point, in the branch
    where the runner equation [Hrun] holds. *)
Ltac pattern_leaf Hrun :=
  solve
    [ intros _; split; [reflexivity | eexists; exact Hrun]
    | intros _; split; reflexivity
    | let H := fresh in
      intros H; exfalso;
      solve [ intuition discriminate
            | intuition congruence
            | apply H; apply known_pattern_cases; tauto ]
    | let H := fresh in
      split; intros H;
      solve [ reflexivity
            | assumption
            | discriminate H
            | exfalso; congruence
            | exfalso; apply H; apply known_pattern_cases; tauto ] ].

Ltac pattern_branch Hrun :=
  do 2 eexists; (split; [rewrite Hrun; reflexivity|]);
  repeat match goal with |- _ /\ _ => split end;
  pattern_leaf Hrun.

(** The escalation runner goes through the whole round trip in every
    world: its first run escalates and hands out a token, the runner feeds
    that token to a second run, and the second run resumes; the runner
    passes with both replies. *)
Theorem runHumanEscalation_round_trip (w : World) :
  exists r1 r2,
    runHumanEscalation w = (inr (Passed (Both r1 r2)), tick (tick (tick (tick w)))) /\
    Escalation.is_escalated "RESUME-123" (inr r1) /\
    Escalation.is_resumed (inr r2).
Proof.
  do 2 eexists. split; [reflexivity|]. split.
  - eexists. split; [reflexivity|]. repeat split.
  - eexists. split; [reflexivity|]. repeat split.
Qed.

(** [runAll] cannot fail: a runner fails only when its pattern throws, and
    none of the four throws on the runner's payload, so in every world and
    for every value of [LLM_MOCK] the four runners pass and the exit code is
    0, whatever the patterns themselves report (a tripped breaker, failed
    items, a degraded answer). *)
Theorem runAll_exit_code (env : option string) (w : World) :
  exists e w',
    runAll env w = (inr e, w') /\
    successCount e = 4%nat /\ totalTests e = 4%nat /\ exitCode e = 0.
Proof. exact (runAll_passes env w). Qed.

(** The entry point, with [pattern] the second argument, or "all" when it
    is missing or empty. For "all" it runs [runAll] and calls
    [process.exit(0)]. For each of the other eight accepted names it runs
    the one runner of that name, which passes, and ends without calling
    [process.exit]: the world it leaves is the one that runner leaves. For
    any other pattern it runs nothing and calls [process.exit(1)]; that is
    the only way it exits with 1. *)
Theorem main_exit_code (argv2 env : option string) (w : World) :
  let pattern :=
    match argv2 with
    | Some s => if bool_decide (s = ""%string) then "all"%string else s
    | None => "all"%string
    end in
  exists code w',
    main argv2 env w = (inr code, w') /\
    (pattern = "all"%string ->
       code = Some 0 /\ exists e, runAll env w = (inr e, w')) /\
    (pattern = "circuit-breaker"%string \/ pattern = "circuitBreaker"%string ->
       code = None /\ exists s, runCircuitBreaker w = (inr (Passed s), w')) /\
    (pattern = "partial-success"%string \/ pattern = "partialSuccess"%string ->
       code = None /\ exists rep, runPartialSuccess w = (inr (Passed rep), w')) /\
    (pattern = "human-escalation"%string \/ pattern = "humanEscalation"%string ->
       code = None /\ exists r, runHumanEscalation w = (inr (Passed r), w')) /\
    (pattern = "graceful-degradation"%string \/ pattern = "gracefulDegradation"%string ->
       code = None /\ exists a, runGracefulDegradation env w = (inr (Passed a), w')) /\
    (pattern ∉ known_patterns -> code = Some 1 /\ w' = w) /\
    (code = Some 1 <-> pattern ∉ known_patterns) /\
    (code = Some 0 <-> pattern = "all"%string).
Proof.
  unfold main. cbv zeta.
  generalize (match argv2 with
              | Some s => if bool_decide (s = ""%string) then "all"%string else s
              | None => "all"%string
              end).
  intros pattern. unfold mbind, JS_bind.
  destruct (runCircuitBreaker_passes w) as (x1 & v1 & H1).
  destruct (runPartialSuccess_passes w) as (x2 & v2 & H2).
  destruct (runHumanEscalation_passes w) as (x3 & H3).
  destruct (runGracefulDegradation_passes env w) as (x4 & v4 & H4).
  destruct (runAll_passes env w) as (e & v0 & H0 & _ & _ & Hcode).
  destruct (String.eqb_spec pattern "all") as [->|Hall].
  { do 2 eexists. split; [rewrite H0, Hcode; reflexivity|].
    repeat match goal with |- _ /\ _ => split end; pattern_leaf H0. }
  destruct (String.eqb_spec pattern "circuit-breaker") as [->|Hcb1];
    [cbn [orb]; pattern_branch H1|].
  destruct (String.eqb_spec pattern "circuitBreaker") as [->|Hcb2];
    [cbn [orb]; pattern_branch H1|].
  destruct (String.eqb_spec pattern "partial-success") as [->|Hps1];
    [cbn [orb]; pattern_branch H2|].
  destruct (String.eqb_spec pattern "partialSuccess") as [->|Hps2];
    [cbn [orb]; pattern_branch H2|].
  destruct (String.eqb_spec pattern "human-escalation") as [->|Hhe1];
    [cbn [orb]; pattern_branch H3|].
  destruct (String.eqb_spec pattern "humanEscalation") as [->|Hhe2];
    [cbn [orb]; pattern_branch H3|].
  destruct (String.eqb_spec pattern "graceful-degradation") as [->|Hgd1];
    [cbn [orb]; pattern_branch H4|].
  destruct (String.eqb_spec pattern "gracefulDegradation") as [->|Hgd2];
    [cbn [orb]; pattern_branch H4|].
  cbn [orb]. do 2 eexists. split; [reflexivity|].
  assert (Hunknown : pattern ∉ known_patterns).
  { rewrite known_pattern_cases. intuition congruence. }
  repeat match goal with |- _ /\ _ => split end; pattern_leaf H0.
Qed.

Lemma main_exit_code_witness :
  (exists w', main (Some "circuit"%string) None (steady_world (1 # 2)%Q)
              = (inr (Some 1), w')) /\
  (exists s w',
     main (Some "circuitBreaker"%string) None (steady_world (1 # 2)%Q) = (inr None, w') /\
     runCircuitBreaker (steady_world (1 # 2)%Q) = (inr (Passed s), w')).
Proof.
  split.
  - destruct (main_exit_code (Some "circuit"%string) None (steady_world (1 # 2)%Q))
      as (code & w' & Hrun & _ & _ & _ & _ & _ & _ & Hone & _).
    exists w'. rewrite Hrun. f_equal. f_equal. apply Hone.
    rewrite known_pattern_cases. cbn. intuition discriminate.
  - destruct (main_exit_code (Some "circuitBreaker"%string) None (steady_world (1 # 2)%Q))
      as (code & w' & Hrun & _ & Hcb & _).
    destruct Hcb as (Hcode & s & Hs); [right; reflexivity|].
    exists s, w'. split; [|exact Hs]. rewrite Hrun, Hcode. reflexivity.
Defined.

End StandaloneFacts.

(** * Human escalation: sequences of runs *)

Module EscalationRuns.
Import Escalation EscalationFacts.

(** What the token of a payload alone makes of a run. *)
Lemma humanEscalation_cases (p : Payload) (w : World) :
  (no_token p = true /\ is_escalated "RESUME-123" (fst (humanEscalation p w))) \/
  (resumeToken p = Some "RESUME-123"%string /\ is_resumed (fst (humanEscalation p w))) \/
  (no_token p = false /\ resumeToken p <> Some "RESUME-123"%string /\
   fails_with "Invalid resume token" (fst (humanEscalation p w))).
Proof.
  destruct p as [d [T|]].
  - destruct (decide (T = ""%string)) as [->|Hne].
    + left. split; [reflexivity|]. eexists. split; [reflexivity|]. repeat split.
    + destruct (decide (T = "RESUME-123"%string)) as [->|Hother].
      * right. left. split; [reflexivity|].
        destruct (resume_ok d w) as (x & Hrun & Hok & Hres). rewrite Hrun.
        exists x. auto.
      * right. right. split; [|split].
        -- unfold no_token. cbn [resumeToken]. apply bool_decide_eq_false_2, Hne.
        -- cbn [resumeToken]. congruence.
        -- rewrite (resume_other d T w Hne Hother). eexists. split; reflexivity.
  - left. split; [reflexivity|]. eexists. split; [reflexivity|]. repeat split.
Qed.

(** In any sequence of runs, what a run answers is decided by its own
    token alone, never by the runs before it: it escalates with the token
    "RESUME-123" when it carries no token, resumes when it carries
    "RESUME-123" (whether or not any run escalated before), and aborts with
    "Invalid resume token" otherwise. *)
Theorem runs_have_no_history (ps : list Payload) (w : World) :
  Forall2
    (fun p r =>
       (no_token p = true /\ is_escalated "RESUME-123" r) \/
       (resumeToken p = Some "RESUME-123"%string /\ is_resumed r) \/
       (no_token p = false /\ resumeToken p <> Some "RESUME-123"%string /\
        fails_with "Invalid resume token" r))
    ps (fst (invocations ps w)).
Proof.
  revert w. induction ps as [|p ps IH]; intros w; cbn [invocations].
  - constructor.
  - pose proof (humanEscalation_cases p w) as Hp.
    destruct (humanEscalation p w) as [r w1]. specialize (IH w1).
    destruct (invocations ps w1) as [rs w2]. cbn [fst] in *.
    constructor; assumption.
Qed.

Lemma runs_have_no_history_witness :
  is_resumed
    (fst (humanEscalation (mkPayload "never escalated" (Some "RESUME-123"%string))
            (steady_world 0))).
Proof.
  pose proof (runs_have_no_history
                [mkPayload "never escalated" (Some "RESUME-123"%string)]
                (steady_world 0)) as H.
  cbn [invocations] in H.
  destruct (humanEscalation _ _) as [r w1]. cbn [fst] in *.
  apply Forall2_cons_1 in H as [[[Hno _]|[[_ Hr]|[_ [Hne _]]]] _].
  - discriminate Hno.
  - exact Hr.
  - exfalso. apply Hne. reflexivity.
Defined.

End EscalationRuns.
